(** * r-integration: the invocation pipeline of [src/r.js]

    A shallow embedding of the bridge between a Node.js host and the
    [Rscript] engine: platform classification, engine location, subprocess
    execution (blocking and promise based), call synthesis and output
    parsing, followed by the properties of the specification checked
    against it. *)

From Stdlib Require Import String Ascii.
From Stdlib Require Import List NArith ZArith Bool Arith Lia.
Import ListNotations.

(** ** JavaScript strings

    A JavaScript string is a sequence of UTF-16 code units.  Literals of the
    source are written [js "..."]; characters that a Rocq literal cannot hold
    conveniently are named. *)

Definition jsstring := list N.

Definition js (s : string) : jsstring :=
  List.map N_of_ascii (list_ascii_of_string s).

Definition ch (a : ascii) : N := N_of_ascii a.

Definition TAB : N := 9%N.
Definition LF : N := 10%N.
Definition CR : N := 13%N.
Definition SPACE : N := 32%N.
Definition DQUOTE : N := 34%N.
Definition QUOTE : N := 39%N.
Definition LPAREN : N := 40%N.
Definition RPAREN : N := 41%N.
Definition COMMA : N := 44%N.
Definition BACKSLASH : N := 92%N.

Fixpoint jseq (a b : jsstring) : bool :=
  match a, b with
  | [], [] => true
  | x :: a', y :: b' => N.eqb x y && jseq a' b'
  | _, _ => false
  end.

(** [s.slice(0, -1)]: the string without its last code unit; the empty
    string stays empty. *)
Definition slice_0_m1 (s : jsstring) : jsstring := removelast s.

(** Truthiness of a value that is either [undefined] or a string. *)
Definition truthy (v : option jsstring) : bool :=
  match v with
  | Some (_ :: _) => true
  | _ => false
  end.

(** ** Parameter values and the call synthesizer *)

(** What [convertParamsArray] can tell apart: an array, a string, a value
    loosely equal to [undefined] ([undefined] or [null]), and any other value
    (number, boolean, ...), which reaches the output only through the text
    that a template literal gives it. *)
#[warnings="-register-all"]
Inductive ParameterValue : Type :=
| PArray (items : list ParameterValue)
| PString (s : jsstring)
| PUndefined
| PScalar (text : jsstring).

(** The [params] argument of the call operations: an array, or an object
    given by [Object.entries(params)] in enumeration order. *)
Inductive Params : Type :=
| Positional (items : list ParameterValue)
| Named (entries : list (jsstring * ParameterValue)).

Fixpoint convertParamsArray (params : ParameterValue) : jsstring :=
  match params with
  | PArray items =>
      let methodSyntax :=
        fold_left (fun acc p => acc ++ convertParamsArray p) items (js "c(") in
      slice_0_m1 methodSyntax ++ js "),"
  | PString s => [QUOTE] ++ s ++ [QUOTE; COMMA]
  | PUndefined => js "NA,"
  | PScalar text => text ++ [COMMA]
  end.

(** One iteration of the loop over [Object.entries(params)]. *)
Definition namedEntry (acc : jsstring) (kv : jsstring * ParameterValue) : jsstring :=
  let (key, value) := kv in
  match value with
  | PArray _ => acc ++ key ++ js "=" ++ convertParamsArray value
  | PString s => acc ++ key ++ js "='" ++ s ++ js "',"
  | PUndefined => acc ++ key ++ js "=NA,"
  | PScalar text => acc ++ key ++ js "=" ++ text ++ js ","
  end.

(** The expression text that [callMethod], [callMethodAsync] and
    [callStandardMethod] build from the method name and the parameters, the
    three copies of the code being identical. *)
Definition methodSyntax (methodName : jsstring) (params : Params) : jsstring :=
  let start := methodName ++ js "(" in
  let filled :=
    match params with
    | Positional items => start ++ convertParamsArray (PArray items)
    | Named entries => fold_left namedEntry entries start
    end in
  slice_0_m1 filled ++ js ")".

(** ** The host: platform, file system, path module and subprocesses *)

(** An error object of [child_process], known by its message. *)
Record ExecError : Type := { message : jsstring }.

(** How [child_process] reports a command that could not be spawned or did not
    exit with status zero: [execSync] throws one error, [exec] hands another to
    its callback.  The two are built apart and need not have the same
    message. *)
Record Failure : Type := {
  thrown : ExecError;
  reported : ExecError
}.

(** What running one command line does: whether it failed, and what it wrote
    to its two output streams. *)
Record ProcOutcome : Type := {
  proc_error : option Failure;
  proc_stdout : jsstring;
  proc_stderr : jsstring
}.

Record Host : Type := {
  process_platform : jsstring;
  fs_existsSync : jsstring -> bool;
  (** [None]: [fs.readdirSync] throws (the path is not a directory) *)
  fs_readdirSync : jsstring -> option (list jsstring);
  pt_join : list jsstring -> jsstring;
  child_process : jsstring -> ProcOutcome
}.

(** ** Platform classifier *)

Definition getCurrentOs (h : Host) : jsstring :=
  let processPlatform := process_platform h in
  if jseq processPlatform (js "win32") then js "win"
  else if jseq processPlatform (js "linux")
          || jseq processPlatform (js "openbsd")
          || jseq processPlatform (js "freebsd") then js "lin"
  else js "mac".

(** ** Process executor *)

(** The value found in the [stderr] field of an executor result, later handed
    to [RScriptError]. *)
Inductive Diagnostic : Type :=
| DUndefined
| DError (e : ExecError)
| DText (s : jsstring).

(** The object both executors build; a field that was never assigned is
    [undefined]. *)
Record ShellResult : Type := {
  stdout : option jsstring;
  stderr : Diagnostic
}.

(** [childProcess.execSync(command, {stdio: "pipe"})] returns the bytes of
    stdout when the command exits with status zero and throws otherwise. *)
Definition executeShellCommand (h : Host) (command : jsstring) : ShellResult :=
  let p := child_process h command in
  match proc_error p with
  | None => {| stdout := Some (proc_stdout p); stderr := DUndefined |}
  | Some failure => {| stdout := None; stderr := DError (thrown failure) |}
  end.

(** The value with which the promise of [execShellCommandAsync] resolves:
    [childProcess.exec] calls back with the error (or [null]) and both streams
    as strings. *)
Definition execShellCommandAsync (h : Host) (command : jsstring) : ShellResult :=
  let p := child_process h command in
  {| stderr := match proc_error p with
               | Some failure => DText (message (reported failure))
               | None => DText (proc_stderr p)
               end;
     stdout := Some (proc_stdout p) |}.

(** ** JSON.parse

    The built-in decoder, following the JSON grammar (ECMA-404): a lexer that
    walks the code units once and a push-down recogniser over its tokens.  A
    number is kept as the decimal value its literal denotes,
    [(-1)^negative * mantissa * 10^exp10]; an object as its members in source
    order. *)

#[warnings="-register-all"]
Inductive JSON : Type :=
| JNull
| JBool (b : bool)
| JNumber (negative : bool) (mantissa : N) (exp10 : Z)
| JString (s : jsstring)
| JArray (items : list JSON)
| JObject (members : list (jsstring * JSON)).

Inductive token : Type :=
| TLBrace | TRBrace | TLBracket | TRBracket | TColon | TComma
| TLiteral (v : JSON).

Definition is_digit (c : N) : bool := (48 <=? c)%N && (c <=? 57)%N.

Definition is_json_ws (c : N) : bool :=
  N.eqb c SPACE || N.eqb c TAB || N.eqb c LF || N.eqb c CR.

Definition is_number_char (c : N) : bool :=
  is_digit c || N.eqb c (ch "-") || N.eqb c (ch "+") || N.eqb c (ch ".")
  || N.eqb c (ch "e") || N.eqb c (ch "E").

Fixpoint span_digits (s : jsstring) : jsstring * jsstring :=
  match s with
  | c :: t =>
      if is_digit c then let (d, r) := span_digits t in (c :: d, r) else ([], s)
  | [] => ([], [])
  end.

Definition digits_value (ds : jsstring) : N :=
  fold_left (fun acc d => (10 * acc + (d - 48))%N) ds 0%N.

(** A number literal: an optional minus sign; an integer part that is one
    digit, or several not starting with zero; optionally a dot and one or more
    digits; optionally an exponent mark, a sign and one or more digits. *)
Definition number_of (s : jsstring) : option JSON :=
  let (negative, s1) :=
    match s with
    | c :: t => if N.eqb c (ch "-") then (true, t) else (false, s)
    | [] => (false, s)
    end in
  let (int, s2) := span_digits s1 in
  let int_ok :=
    match int with
    | [] => false
    | [_] => true
    | c :: _ => negb (N.eqb c (ch "0"))
    end in
  let '(frac, frac_ok, s3) :=
    match s2 with
    | c :: t =>
        if N.eqb c (ch ".")
        then let (f, r) := span_digits t in
             (f, match f with [] => false | _ => true end, r)
        else ([], true, s2)
    | [] => ([], true, s2)
    end in
  let '(exponent, exp_ok, s4) :=
    match s3 with
    | c :: t =>
        if N.eqb c (ch "e") || N.eqb c (ch "E")
        then
          let (exp_negative, t1) :=
            match t with
            | c1 :: t' =>
                if N.eqb c1 (ch "-") then (true, t')
                else if N.eqb c1 (ch "+") then (false, t')
                else (false, t)
            | [] => (false, t)
            end in
          let (e, r) := span_digits t1 in
          let v := Z.of_N (digits_value e) in
          (if exp_negative then (- v)%Z else v,
           match e with [] => false | _ => true end, r)
        else (0%Z, true, s3)
    | [] => (0%Z, true, s3)
    end in
  match s4 with
  | [] =>
      if int_ok && frac_ok && exp_ok
      then Some (JNumber negative (digits_value (int ++ frac))
                   (exponent - Z.of_nat (length frac))%Z)
      else None
  | _ :: _ => None
  end.

Fixpoint starts_with (prefix s : jsstring) : bool :=
  match prefix, s with
  | [], _ => true
  | p :: prefix', c :: s' => N.eqb p c && starts_with prefix' s'
  | _ :: _, [] => false
  end.

Definition hex_digit (c : N) : option N :=
  if is_digit c then Some (c - 48)%N
  else if (97 <=? c)%N && (c <=? 102)%N then Some (c - 87)%N
  else if (65 <=? c)%N && (c <=? 70)%N then Some (c - 55)%N
  else None.

Definition escape_of (c : N) : option N :=
  if N.eqb c DQUOTE then Some DQUOTE
  else if N.eqb c BACKSLASH then Some BACKSLASH
  else if N.eqb c (ch "/") then Some (ch "/")
  else if N.eqb c (ch "b") then Some 8%N
  else if N.eqb c (ch "f") then Some 12%N
  else if N.eqb c (ch "n") then Some LF
  else if N.eqb c (ch "r") then Some CR
  else if N.eqb c (ch "t") then Some TAB
  else None.

Inductive LexState : Type :=
| LIdle
| LSkip (n : nat)
| LInString (acc : jsstring)
| LEscape (acc : jsstring)
| LHex (acc : jsstring) (remaining : nat) (value : N)
| LInNumber (acc : jsstring).

(** The token (if any) that begins at code unit [c], outside any token, and the
    state in which the code units after [c] are read. *)
Definition start_token (c : N) (rest : jsstring) : option (list token * LexState) :=
  if is_json_ws c then Some ([], LIdle)
  else if N.eqb c (ch "{") then Some ([TLBrace], LIdle)
  else if N.eqb c (ch "}") then Some ([TRBrace], LIdle)
  else if N.eqb c (ch "[") then Some ([TLBracket], LIdle)
  else if N.eqb c (ch "]") then Some ([TRBracket], LIdle)
  else if N.eqb c (ch ":") then Some ([TColon], LIdle)
  else if N.eqb c COMMA then Some ([TComma], LIdle)
  else if N.eqb c DQUOTE then Some ([], LInString [])
  else if is_number_char c then Some ([], LInNumber [c])
  else if starts_with (js "true") (c :: rest) then Some ([TLiteral (JBool true)], LSkip 3)
  else if starts_with (js "false") (c :: rest) then Some ([TLiteral (JBool false)], LSkip 4)
  else if starts_with (js "null") (c :: rest) then Some ([TLiteral JNull], LSkip 3)
  else None.

Fixpoint lex (st : LexState) (s : jsstring) : option (list token) :=
  match s with
  | [] =>
      match st with
      | LIdle => Some []
      | LInNumber acc => option_map (fun n => [TLiteral n]) (number_of acc)
      | _ => None
      end
  | c :: t =>
      match st with
      | LIdle =>
          match start_token c t with
          | Some (toks, st') => option_map (app toks) (lex st' t)
          | None => None
          end
      | LSkip n =>
          match n with
          | S (S n') => lex (LSkip (S n')) t
          | _ => lex LIdle t
          end
      | LInString acc =>
          if N.eqb c DQUOTE then option_map (cons (TLiteral (JString acc))) (lex LIdle t)
          else if N.eqb c BACKSLASH then lex (LEscape acc) t
          else if (c <? 32)%N then None
          else lex (LInString (acc ++ [c])) t
      | LEscape acc =>
          if N.eqb c (ch "u") then lex (LHex acc 4 0%N) t
          else match escape_of c with
               | Some x => lex (LInString (acc ++ [x])) t
               | None => None
               end
      | LHex acc remaining value =>
          match hex_digit c with
          | Some d =>
              let value' := (16 * value + d)%N in
              match remaining with
              | S (S r) => lex (LHex acc (S r) value') t
              | _ => lex (LInString (acc ++ [value'])) t
              end
          | None => None
          end
      | LInNumber acc =>
          if is_number_char c then lex (LInNumber (acc ++ [c])) t
          else
            match number_of acc, start_token c t with
            | Some n, Some (toks, st') =>
                option_map (fun r => TLiteral n :: toks ++ r) (lex st' t)
            | _, _ => None
            end
      end
  end.

(** An enclosing array or object that is still open. *)
Inductive Frame : Type :=
| FArray (done : list JSON)
| FObject (done : list (jsstring * JSON)) (key : jsstring).

Inductive ParseState : Type :=
| SValue (may_close : bool) (stack : list Frame)
| SKey (may_close : bool) (done : list (jsstring * JSON)) (stack : list Frame)
| SColon (done : list (jsstring * JSON)) (key : jsstring) (stack : list Frame)
| SDone (v : JSON) (stack : list Frame).

Definition parse_step (st : ParseState) (tok : token) : option ParseState :=
  match st, tok with
  | SValue _ stack, TLiteral v => Some (SDone v stack)
  | SValue _ stack, TLBracket => Some (SValue true (FArray [] :: stack))
  | SValue _ stack, TLBrace => Some (SKey true [] stack)
  | SValue true (FArray [] :: stack), TRBracket => Some (SDone (JArray []) stack)
  | SKey _ done stack, TLiteral (JString key) => Some (SColon done key stack)
  | SKey true [] stack, TRBrace => Some (SDone (JObject []) stack)
  | SColon done key stack, TColon => Some (SValue false (FObject done key :: stack))
  | SDone v (FArray done :: stack), TComma =>
      Some (SValue false (FArray (v :: done) :: stack))
  | SDone v (FArray done :: stack), TRBracket =>
      Some (SDone (JArray (rev (v :: done))) stack)
  | SDone v (FObject done key :: stack), TComma =>
      Some (SKey false ((key, v) :: done) stack)
  | SDone v (FObject done key :: stack), TRBrace =>
      Some (SDone (JObject (rev ((key, v) :: done))) stack)
  | _, _ => None
  end.

Fixpoint parse_tokens (st : ParseState) (toks : list token) : option JSON :=
  match toks with
  | [] => match st with SDone v [] => Some v | _ => None end
  | tok :: rest =>
      match parse_step st tok with
      | Some st' => parse_tokens st' rest
      | None => None
      end
  end.

(** [JSON.parse(text)]: [None] when it throws a [SyntaxError]. *)
Definition JSON_parse (text : jsstring) : option JSON :=
  match lex LIdle text with
  | Some toks => parse_tokens (SValue false []) toks
  | None => None
  end.

(** ** Output parser *)

(** The class [\s] of a regular expression without the [u] flag. *)
Definition is_space (c : N) : bool :=
  ((9 <=? c) && (c <=? 13) || N.eqb c 32 || N.eqb c 160 || N.eqb c 5760
   || (8192 <=? c) && (c <=? 8202) || N.eqb c 8232 || N.eqb c 8233
   || N.eqb c 8239 || N.eqb c 8287 || N.eqb c 12288 || N.eqb c 65279)%N.

(** Length of the match of [\[\d+\] ] that starts at the head of [s]. *)
Definition match_index_prefix (s : jsstring) : option nat :=
  match s with
  | c :: t =>
      if N.eqb c (ch "[") then
        match span_digits t with
        | ((_ :: _) as ds, c1 :: c2 :: _) =>
            if N.eqb c1 (ch "]") && N.eqb c2 SPACE
            then Some (3 + List.length ds)
            else None
        | _ => None
        end
      else None
  | [] => None
  end.

(** [s.replace(/\[\d+\] /g, "")]: matches are looked for from left to right;
    [skip] counts the code units of the current match still to be dropped. *)
Fixpoint strip_index_prefixes (skip : nat) (s : jsstring) : jsstring :=
  match s with
  | [] => []
  | c :: t =>
      match skip with
      | S k => strip_index_prefixes k t
      | O =>
          match match_index_prefix s with
          | Some (S k) => strip_index_prefixes k t
          | _ => c :: strip_index_prefixes 0 t
          end
      end
  end.

(** [s.replace(/\t*\s*[\r\n]*$/g, "")] and [s.replace(/\t*\s*\n*$/g, "")]:
    both patterns match, at the first position from which only white space
    follows, everything up to the end. *)
Fixpoint strip_trailing_space (s : jsstring) : jsstring :=
  match s with
  | [] => []
  | c :: t => if forallb is_space s then [] else c :: strip_trailing_space t
  end.

(** [s.replace(/[\s\t]+/g, separator)]; [in_run] tells that the previous code
    unit belongs to the run being replaced. *)
Fixpoint collapse_space (separator : jsstring) (in_run : bool) (s : jsstring) : jsstring :=
  match s with
  | [] => []
  | c :: t =>
      if is_space c
      then (if in_run then [] else separator) ++ collapse_space separator true t
      else c :: collapse_space separator false t
  end.

(** [s.split(/[...]+/)] for a class of code units [is_sep]: the pieces between
    the maximal runs of separators, [piece] being the piece read so far. *)
Fixpoint split_runs (is_sep : N -> bool) (in_run : bool) (piece s : jsstring)
  : list jsstring :=
  match s with
  | [] => [piece]
  | c :: t =>
      if is_sep c
      then if in_run then split_runs is_sep true [] t
           else piece :: split_runs is_sep true [] t
      else split_runs is_sep false (piece ++ [c]) t
  end.

(** One element of the array [filterMultiline] returns. *)
Inductive ParsedValue : Type :=
| VUndefined
| VNaN
| VString (s : jsstring)
| VJson (v : JSON).

(** The body of the loop over the pieces. *)
Definition convertToken (piece : jsstring) : ParsedValue :=
  if jseq piece (js "NA") then VUndefined
  else if jseq piece (js "NaN") then VNaN
  else VString (filter (fun c => negb (N.eqb c DQUOTE)) piece).

(** The text handed to [JSON.parse]. *)
Definition normalize (h : Host) (commandResult : jsstring) : jsstring :=
  let currentOS := getCurrentOs h in
  let commandResult := strip_index_prefixes 0 commandResult in
  if jseq currentOS (js "win")
  then collapse_space [CR; LF] false (strip_trailing_space commandResult)
  else collapse_space [LF] false (strip_trailing_space commandResult).

Definition filterMultiline (h : Host) (commandResult : jsstring) : list ParsedValue :=
  let currentOS := getCurrentOs h in
  let commandResult := normalize h commandResult in
  match JSON_parse commandResult with
  | Some v => [VJson v]
  | None =>
      let data :=
        if jseq currentOS (js "win")
        then split_runs (fun c => N.eqb c CR || N.eqb c LF) false [] commandResult
        else split_runs (fun c => N.eqb c LF) false [] commandResult in
      List.map convertToken data
  end.

(** ** Errors and completions *)

(** Modelled from the spec: the class [RScriptError], whose file
    [errors/r-script-error.js] is not among the sources; by the error taxonomy
    of the specification it is the script-execution error and carries the raw
    diagnostic it is constructed with.  The other values the operations throw
    are those of the sources: a plain [Error] with its message, the
    [REngineNotFoundError] of [errors/r-engine-not-found-error.js] with the
    path it is constructed with, and what [fs.readdirSync] throws for a path
    that is not a directory. *)
Inductive Thrown : Type :=
| Error_ (message : jsstring)
| REngineNotFoundError (path : option jsstring)
| RScriptError (stderr : Diagnostic)
| HostError (path : jsstring).

(** Text of a value inside a template literal, for a value that is a string
    or [undefined]. *)
Definition template_text (v : option jsstring) : jsstring :=
  match v with
  | Some s => s
  | None => js "undefined"
  end.

(** The message [REngineNotFoundError] passes to its base class. *)
Definition REngineNotFoundError_message (path : option jsstring) : jsstring :=
  js "R Engine not found. See www.r-project.org. (path: "
  ++ template_text path ++ js ")".

(** How a call ends: with a value, or by throwing.  For an [async] function it
    is how the returned promise settles: fulfilled or rejected. *)
Inductive Completion (A : Type) : Type :=
| Return (a : A)
| Throw (e : Thrown).

Arguments Return {A} a.
Arguments Throw {A} e.

Definition bind {A B : Type} (c : Completion A) (k : A -> Completion B) : Completion B :=
  match c with
  | Return a => k a
  | Throw e => Throw e
  end.

Notation "x <- c ;; k" := (bind c (fun x => k))
  (at level 61, c at next level, right associativity).

(** ** Engine locator *)

(** [s.replace("\n", "")]: only the first occurrence is removed. *)
Fixpoint remove_first_LF (s : jsstring) : jsstring :=
  match s with
  | [] => []
  | c :: t => if N.eqb c LF then t else c :: remove_first_LF t
  end.

Definition PROGRAM_FILES_R : jsstring :=
  js "C:" ++ [BACKSLASH] ++ js "Program Files" ++ [BACKSLASH] ++ js "R".

(** The check after the [switch]; [installationDir] is [None] while it still
    holds its initial [0]. *)
Definition checkInstallationDir (installationDir path : option jsstring)
  : Completion jsstring :=
  match installationDir with
  | Some (c :: dir) => Return (c :: dir)
  | _ => Throw (REngineNotFoundError path)
  end.

Definition CANNOT_DETERMINE_OS : jsstring := js "Cannot determine OS type".

(** The branch [case "win"] of the [switch]. *)
Definition windowsCase (h : Host) (path : option jsstring) : Completion jsstring :=
  let path := if truthy path then template_text path
              else pt_join h [PROGRAM_FILES_R] in
  if fs_existsSync h path then
    match fs_readdirSync h path with
    | None => Throw (HostError path)
    | Some dirContent =>
        match dirContent with
        | [] => checkInstallationDir None (Some path)
        | _ :: _ =>
            let lastVersion := last dirContent [] in
            checkInstallationDir
              (Some (pt_join h [path; lastVersion; js "bin"; js "Rscript.exe"]))
              (Some path)
        end
    end
  else checkInstallationDir None (Some path).

(** The branch shared by [case "mac"] and [case "lin"]. *)
Definition unixCase (h : Host) (path : option jsstring) : Completion jsstring :=
  if negb (truthy path) then
    let path := stdout (executeShellCommand h (js "which Rscript")) in
    if truthy path
    then checkInstallationDir (option_map remove_first_LF path) path
    else checkInstallationDir None path
  else
    let path := pt_join h [template_text path; js "Rscript"] in
    if fs_existsSync h path
    then checkInstallationDir (Some path) (Some path)
    else checkInstallationDir None (Some path).

Definition getRscriptPath (h : Host) (path : option jsstring) : Completion jsstring :=
  let os := getCurrentOs h in
  if jseq os (js "win") then windowsCase h path
  else if jseq os (js "mac") || jseq os (js "lin") then unixCase h path
  else Throw (Error_ CANNOT_DETERMINE_OS).

(** ** Invocation facade *)

(** The test [if (commandResult.stdout)] and what follows it, the same in
    every runner. *)
Definition outputOrThrow (h : Host) (commandResult : ShellResult)
  : Completion (list ParsedValue) :=
  if truthy (stdout commandResult)
  then Return (filterMultiline h (template_text (stdout commandResult)))
  else Throw (RScriptError (stderr commandResult)).

(** The template literals that compose the command line: the runner between
    double quotes, then [-e] and the quoted expression, or the quoted file. *)
Definition expressionCommandLine (RscriptBinaryPath command : jsstring) : jsstring :=
  [DQUOTE] ++ RscriptBinaryPath ++ [DQUOTE] ++ js " -e " ++ [DQUOTE] ++ command ++ [DQUOTE].

Definition scriptCommandLine (RscriptBinaryPath fileLocation : jsstring) : jsstring :=
  [DQUOTE] ++ RscriptBinaryPath ++ [DQUOTE] ++ js " " ++ [DQUOTE] ++ fileLocation ++ [DQUOTE].

(** The expressions the call operations hand to the expression runners. *)
Definition sourceAndPrint (fileLocation methodSyntax : jsstring) : jsstring :=
  js "source('" ++ fileLocation ++ js "'); print(" ++ methodSyntax ++ js ")".

Definition printOnly (methodSyntax : jsstring) : jsstring :=
  js "print(" ++ methodSyntax ++ js ")".

Definition executeRCommand (h : Host) (command : jsstring)
  (RBinariesLocation : option jsstring) : Completion (list ParsedValue) :=
  RscriptBinaryPath <- getRscriptPath h RBinariesLocation ;;
  let commandToExecute := expressionCommandLine RscriptBinaryPath command in
  let commandResult := executeShellCommand h commandToExecute in
  outputOrThrow h commandResult.

Definition executeRCommandAsync (h : Host) (command : jsstring)
  (RBinariesLocation : option jsstring) : Completion (list ParsedValue) :=
  RscriptBinaryPath <- getRscriptPath h RBinariesLocation ;;
  let commandToExecute := expressionCommandLine RscriptBinaryPath command in
  let commandResult := execShellCommandAsync h commandToExecute in
  outputOrThrow h commandResult.

Definition executeRScript (h : Host) (fileLocation : jsstring)
  (RBinariesLocation : option jsstring) : Completion (list ParsedValue) :=
  RscriptBinaryPath <- getRscriptPath h RBinariesLocation ;;
  if negb (fs_existsSync h fileLocation) then
    Throw (Error_ (js "ERROR: the file " ++ [DQUOTE] ++ fileLocation ++ [DQUOTE]
                   ++ js " doesn't exist"))
  else
    let commandToExecute := scriptCommandLine RscriptBinaryPath fileLocation in
    let commandResult := executeShellCommand h commandToExecute in
    outputOrThrow h commandResult.

Definition INVALID_FILE_CALL : jsstring :=
  js "ERROR: please provide valid parameters - methodName, fileLocation and params cannot be null".

Definition INVALID_STANDARD_CALL : jsstring :=
  js "ERROR: please provide valid parameters - methodName and params cannot be null".

(** [params] is [None] when the argument is [undefined] or [null]; arrays and
    objects, empty ones too, are truthy. *)
Definition callMethod (h : Host) (fileLocation methodName : option jsstring)
  (params : option Params) (RBinariesLocation : option jsstring)
  : Completion (list ParsedValue) :=
  match params with
  | Some params =>
      if negb (truthy methodName) || negb (truthy fileLocation)
      then Throw (Error_ INVALID_FILE_CALL)
      else
        let methodSyntax := methodSyntax (template_text methodName) params in
        executeRCommand h
          (sourceAndPrint (template_text fileLocation) methodSyntax)
          RBinariesLocation
  | None => Throw (Error_ INVALID_FILE_CALL)
  end.

Definition callMethodAsync (h : Host) (fileLocation methodName : option jsstring)
  (params : option Params) (RBinariesLocation : option jsstring)
  : Completion (list ParsedValue) :=
  match params with
  | Some params =>
      if negb (truthy methodName) || negb (truthy fileLocation)
      then Throw (Error_ INVALID_FILE_CALL)
      else
        let methodSyntax := methodSyntax (template_text methodName) params in
        executeRCommandAsync h
          (sourceAndPrint (template_text fileLocation) methodSyntax)
          RBinariesLocation
  | None => Throw (Error_ INVALID_FILE_CALL)
  end.

Definition callStandardMethod (h : Host) (methodName : option jsstring)
  (params : option Params) (RBinariesLocation : option jsstring)
  : Completion (list ParsedValue) :=
  match params with
  | Some params =>
      if negb (truthy methodName)
      then Throw (Error_ INVALID_STANDARD_CALL)
      else
        let methodSyntax := methodSyntax (template_text methodName) params in
        executeRCommand h (printOnly methodSyntax) RBinariesLocation
  | None => Throw (Error_ INVALID_STANDARD_CALL)
  end.

(** ** A POSIX host

    [path.join] as Node.js defines it on POSIX systems: the non-empty
    arguments are joined with a slash and the result is normalised segment by
    segment. *)

Definition SLASH : N := ch "/".

Fixpoint split_slash (piece s : jsstring) : list jsstring :=
  match s with
  | [] => [piece]
  | c :: t =>
      if N.eqb c SLASH then piece :: split_slash [] t
      else split_slash (piece ++ [c]) t
  end.

Fixpoint join_with (separator : jsstring) (pieces : list jsstring) : jsstring :=
  match pieces with
  | [] => []
  | [p] => p
  | p :: rest => p ++ separator ++ join_with separator rest
  end.

(** One segment of the path against the segments kept so far (last first). *)
Definition normalize_segment (allowAboveRoot : bool) (kept : list jsstring)
  (segment : jsstring) : list jsstring :=
  if jseq segment [] || jseq segment (js ".") then kept
  else if jseq segment (js "..") then
    match kept with
    | top :: below =>
        if jseq top (js "..") then segment :: kept else below
    | [] => if allowAboveRoot then [segment] else []
    end
  else segment :: kept.

Definition posix_normalize (path : jsstring) : jsstring :=
  match path with
  | [] => js "."
  | first :: _ =>
      let isAbsolute := N.eqb first SLASH in
      let trailingSeparator := N.eqb (last path 0%N) SLASH in
      let segments :=
        rev (fold_left (normalize_segment (negb isAbsolute)) (split_slash [] path) []) in
      match segments with
      | [] =>
          if isAbsolute then js "/"
          else if trailingSeparator then js "./" else js "."
      | _ :: _ =>
          (if isAbsolute then js "/" else [])
          ++ join_with (js "/") segments
          ++ (if trailingSeparator then js "/" else [])
      end
  end.

Definition posix_join (args : list jsstring) : jsstring :=
  match filter (fun a => negb (jseq a [])) args with
  | [] => js "."
  | parts => posix_normalize (join_with (js "/") parts)
  end.

(** A Linux machine on which commands are answered by [shell] and the files
    listed in [files] exist. *)
Definition linux_host (files : list jsstring) (shell : jsstring -> ProcOutcome) : Host :=
  {| process_platform := js "linux";
     fs_existsSync := fun p => existsb (jseq p) files;
     fs_readdirSync := fun _ => None;
     pt_join := posix_join;
     child_process := shell |}.

(** A process that exits with status zero after writing [out] and [err]. *)
Definition exits_ok (out err : jsstring) : ProcOutcome :=
  {| proc_error := None; proc_stdout := out; proc_stderr := err |}.

(** The two errors of Node.js for a command that exits with a status other
    than zero after writing [err] to its diagnostic stream: the message of
    [execSync] names the command and, only when [err] is not empty, goes on
    with a line feed and [err]; the message of [exec] names the command and
    always goes on with a line feed and [err]. *)
Definition exitFailure (command err : jsstring) : Failure :=
  {| thrown :=
       {| message := js "Command failed: " ++ command
                     ++ match err with
                        | [] => []
                        | _ :: _ => LF :: err
                        end |};
     reported := {| message := js "Command failed: " ++ command ++ [LF] ++ err |} |}.

(** A process that writes [out] and [err] and then exits with a status other
    than zero. *)
Definition exits_failed (command out err : jsstring) : ProcOutcome :=
  {| proc_error := Some (exitFailure command err);
     proc_stdout := out;
     proc_stderr := err |}.

(** * Vocabulary of the properties *)

(** ** Locator and executor *)

(** A thrown value other than the plain error of the [default] branch of the
    locator's [switch]. *)
Definition classified (e : Thrown) : Prop :=
  match e with
  | Error_ message => message <> CANNOT_DETERMINE_OS
  | _ => True
  end.

Definition never_unsupported {A : Type} (c : Completion A) : Prop :=
  match c with
  | Return _ => True
  | Throw e => classified e
  end.

Definition stdout_populated (r : ShellResult) : bool :=
  match stdout r with Some _ => true | None => false end.

Definition stderr_populated (r : ShellResult) : bool :=
  match stderr r with DUndefined => false | _ => true end.

Definition exactly_one_populated (r : ShellResult) : Prop :=
  xorb (stdout_populated r) (stderr_populated r) = true.

(** ** Runners *)

(** What a blocking runner makes of the subprocess [proc]. *)
Definition blockingOutcome (h : Host) (proc : ProcOutcome) : Completion (list ParsedValue) :=
  match proc_error proc, proc_stdout proc with
  | None, c :: out => Return (filterMultiline h (c :: out))
  | None, [] => Throw (RScriptError DUndefined)
  | Some failure, _ => Throw (RScriptError (DError (thrown failure)))
  end.

(** What the promise-based runner makes of the subprocess [proc]. *)
Definition promiseOutcome (h : Host) (proc : ProcOutcome) : Completion (list ParsedValue) :=
  match proc_stdout proc with
  | c :: out => Return (filterMultiline h (c :: out))
  | [] => Throw (RScriptError (DText (match proc_error proc with
                                      | Some failure => message (reported failure)
                                      | None => proc_stderr proc
                                      end)))
  end.

Definition throws_script_error {A : Type} (c : Completion A) : Prop :=
  exists d, c = Throw (RScriptError d).

(** The text a diagnostic holds: the message of an error object, or the text
    itself. *)
Definition diagnostic_content (d : Diagnostic) : option jsstring :=
  match d with
  | DUndefined => None
  | DError e => Some (message e)
  | DText s => Some s
  end.

(** Both calls return the same value, or both throw: script-execution errors
    with the same diagnostic content, or the same other error. *)
Definition same_outcome (a b : Completion (list ParsedValue)) : Prop :=
  match a, b with
  | Return x, Return y => x = y
  | Throw (RScriptError d1), Throw (RScriptError d2) =>
      diagnostic_content d1 = diagnostic_content d2
  | Throw e1, Throw e2 => e1 = e2
  | _, _ => False
  end.

(** The subprocess either succeeds and writes to stdout, or fails without
    writing to stdout in a way that gives the error [execSync] throws and the
    error [exec] reports the same message. *)
Definition runners_comparable (proc : ProcOutcome) : Prop :=
  (proc_error proc = None /\ proc_stdout proc <> [])
  \/ (exists failure,
        proc_error proc = Some failure
        /\ proc_stdout proc = []
        /\ message (thrown failure) = message (reported failure)).

(** A subprocess that exits with status zero and writes nothing to stdout. *)
Definition silent (proc : ProcOutcome) : Prop :=
  proc_error proc = None /\ proc_stdout proc = [].

(** The call throws the script-execution error, with no diagnostic or with the
    text of the diagnostic stream of [proc]. *)
Definition silent_failure (c : Completion (list ParsedValue)) (proc : ProcOutcome) : Prop :=
  (c = Throw (RScriptError DUndefined)
   \/ c = Throw (RScriptError (DText (proc_stderr proc))))
  /\ forall data, c <> Return data.

(** ** Call expressions *)

(** Brings both sides of an equation between concatenations to the same
    right-nested form. *)
Ltac string_normalize := repeat (progress simpl || rewrite <- app_assoc).

(** The text the loop of [convertParamsArray] appends for [items]. *)
Definition serializedItems (items : list ParameterValue) : jsstring :=
  concat (List.map convertParamsArray items).

(** The text the loop over [Object.entries(params)] appends for [entries]. *)
Definition serializedEntries (entries : list (jsstring * ParameterValue)) : jsstring :=
  fold_left namedEntry entries [].

(** What is left of the text [rest] that follows a parameter once the last
    code unit of the whole has been sliced away: nothing when no parameter
    follows, else the separator and [rest] without its last code unit. *)
Definition following (rest : jsstring) : jsstring :=
  match rest with
  | [] => []
  | _ :: _ => COMMA :: slice_0_m1 rest
  end.

(** The serialization as the specification words it: a list is the
    concatenation expression [c(...)] around its serialized elements joined
    by commas, a string is put between single quotes, a missing value is
    [NA], any other scalar is its own text. *)
Fixpoint serialize (p : ParameterValue) : jsstring :=
  match p with
  | PArray items => js "c(" ++ join_with [COMMA] (List.map serialize items) ++ js ")"
  | PString s => [QUOTE] ++ s ++ [QUOTE]
  | PUndefined => js "NA"
  | PScalar text => text
  end.

(** Every array in [p], at any level, has at least one element. *)
Fixpoint lists_nonempty (p : ParameterValue) : bool :=
  match p with
  | PArray items =>
      match items with [] => false | _ :: _ => forallb lists_nonempty items end
  | _ => true
  end.

(** How deeply arrays are nested in [p]: 0 for a scalar, one more than the
    deepest element for an array. *)
Fixpoint nesting_depth (p : ParameterValue) : nat :=
  match p with
  | PArray items => S (fold_right Nat.max 0 (List.map nesting_depth items))
  | _ => 0
  end.

Definition paren_free (s : jsstring) : bool :=
  forallb (fun c => negb (N.eqb c LPAREN || N.eqb c RPAREN)) s.

(** No string or scalar text in [p] holds a parenthesis. *)
Fixpoint atoms_paren_free (p : ParameterValue) : bool :=
  match p with
  | PArray items => forallb atoms_paren_free items
  | PString s => paren_free s
  | PUndefined => true
  | PScalar text => paren_free text
  end.

(** Reads [s] from nesting depth [depth]: the depth at the end and the
    greatest depth seen, or [None] when a parenthesis closes what was never
    opened. *)
Fixpoint paren_scan (depth deepest : nat) (s : jsstring) : option (nat * nat) :=
  match s with
  | [] => Some (depth, deepest)
  | c :: t =>
      if N.eqb c LPAREN then paren_scan (S depth) (Nat.max deepest (S depth)) t
      else if N.eqb c RPAREN then
        match depth with
        | O => None
        | S d => paren_scan d deepest t
        end
      else paren_scan depth deepest t
  end.

Definition balanced (s : jsstring) : bool :=
  match paren_scan 0 0 s with
  | Some (O, _) => true
  | _ => false
  end.

Definition paren_depth (s : jsstring) : nat :=
  match paren_scan 0 0 s with
  | Some (_, deepest) => deepest
  | None => 0
  end.

(** Read from any depth, [s] comes back to that depth without ever closing
    what it did not open. *)
Definition closes (s : jsstring) : Prop :=
  forall depth deepest,
    depth <= deepest ->
    exists deepest',
      deepest <= deepest' /\ paren_scan depth deepest s = Some (depth, deepest').

(** The text of one entry of a named call, as the specification words it. *)
Definition serializeEntry (kv : jsstring * ParameterValue) : jsstring :=
  fst kv ++ js "=" ++ serialize (snd kv).

Definition entry_wellformed (kv : jsstring * ParameterValue) : bool :=
  paren_free (fst kv) && lists_nonempty (snd kv) && atoms_paren_free (snd kv).

(** ** Parsed output *)

(** [s.split(separator)] for a non-empty string [separator]: the pieces
    between its occurrences, found from left to right; [skip] counts the code
    units of the current occurrence still to be passed. *)
Fixpoint split_on (separator : jsstring) (skip : nat) (piece s : jsstring)
  : list jsstring :=
  match s with
  | [] => [piece]
  | c :: t =>
      match skip with
      | S k => split_on separator k piece t
      | O =>
          if starts_with separator s
          then piece :: split_on separator (Nat.pred (List.length separator)) [] t
          else split_on separator 0 (piece ++ [c]) t
      end
  end.

(** The line separator of the platform. *)
Definition line_separator (h : Host) : jsstring :=
  if jseq (getCurrentOs h) (js "win") then [CR; LF] else [LF].

(** The value of one token, as the specification words it. *)
Definition tokenValue (piece : jsstring) : ParsedValue :=
  if list_eq_dec N.eq_dec piece (js "NA") then VUndefined
  else if list_eq_dec N.eq_dec piece (js "NaN") then VNaN
  else VString (filter (fun c => negb (N.eqb c DQUOTE)) piece).

(** The parser, as the specification words it: the normalized text decoded as
    one JSON value, or else split on the line separator of the platform, each
    token mapped to its value. *)
Definition parse_as_specified (h : Host) (rawText : jsstring) : list ParsedValue :=
  let text := normalize h rawText in
  match JSON_parse text with
  | Some v => [VJson v]
  | None => List.map tokenValue (split_on (line_separator h) 0 [] text)
  end.

(** ** Further vocabulary *)

(** A Windows machine whose directories are listed by [listing] ([None] for a
    path that is not an existing directory).  Its [path.join] puts a
    backslash between the parts, as [path.win32.join] does for parts that
    hold no separator and no dot segment. *)
Definition windows_host (listing : jsstring -> option (list jsstring))
  (shell : jsstring -> ProcOutcome) : Host :=
  {| process_platform := js "win32";
     fs_existsSync := fun p => match listing p with Some _ => true | None => false end;
     fs_readdirSync := listing;
     pt_join := join_with [BACKSLASH];
     child_process := shell |}.

(** The message of the error [executeRScript] throws for a missing file. *)
Definition fileMissingMessage (fileLocation : jsstring) : jsstring :=
  js "ERROR: the file " ++ [DQUOTE] ++ fileLocation ++ [DQUOTE] ++ js " doesn't exist".

(** The operation ended by throwing the validation error [message]. *)
Definition rejected (c : Completion (list ParsedValue)) (message : jsstring) : Prop :=
  c = Throw (Error_ message).

(** No code unit of [s] is white space. *)
Definition space_free (s : jsstring) : bool :=
  forallb (fun c => negb (is_space c)) s.

(** No code unit of [s] is a double quote. *)
Definition quote_free (s : jsstring) : bool :=
  forallb (fun c => negb (N.eqb c DQUOTE)) s.

(** An element as the split of the text yields them: [undefined], the
    not-a-number value, or a string without white space and double quotes. *)
Definition clean_element (x : ParsedValue) : Prop :=
  match x with
  | VUndefined => True
  | VNaN => True
  | VString s => space_free s = true /\ quote_free s = true
  | VJson _ => False
  end.

(** No code unit of [s] is the space character. *)
Definition blank_free (s : jsstring) : bool :=
  forallb (fun c => negb (N.eqb c SPACE)) s.

(** The first [n] code units of [s] exist and are not white space. *)
Fixpoint nonspace_prefix (n : nat) (s : jsstring) : bool :=
  match n with
  | O => true
  | S k =>
      match s with
      | c :: t => negb (is_space c) && nonspace_prefix k t
      | [] => false
      end
  end.

(** The lexer in state [st] does not skip over white space of [s]. *)
Definition lex_ready (st : LexState) (s : jsstring) : Prop :=
  match st with
  | LSkip n => nonspace_prefix n s = true
  | _ => True
  end.

(** How many arrays of [p], at any level, are empty. *)
Fixpoint empty_arrays (p : ParameterValue) : nat :=
  match p with
  | PArray items =>
      match items with
      | [] => 1
      | _ :: _ => list_sum (List.map empty_arrays items)
      end
  | _ => 0
  end.

Definition opening_count (s : jsstring) : nat :=
  List.length (filter (fun c => N.eqb c LPAREN) s).

Definition closing_count (s : jsstring) : nat :=
  List.length (filter (fun c => N.eqb c RPAREN) s).

(** [s] closes [n] parentheses more than it opens. *)
Definition surplus (s : jsstring) (n : nat) : Prop :=
  closing_count s = opening_count s + n.

(** Neither the name nor the value of the entry holds a parenthesis inside a
    string. *)
Definition entry_paren_free (kv : jsstring * ParameterValue) : bool :=
  paren_free (fst kv) && atoms_paren_free (snd kv).

(** * Properties *)

(** ** Platform classification and the locator *)

Lemma getCurrentOs_cases (h : Host) :
  getCurrentOs h = js "win" \/ getCurrentOs h = js "lin" \/ getCurrentOs h = js "mac".
Proof.
  unfold getCurrentOs.
  destruct (jseq (process_platform h) (js "win32")); [now left|].
  destruct (jseq (process_platform h) (js "linux")
            || jseq (process_platform h) (js "openbsd")
            || jseq (process_platform h) (js "freebsd")); [now right; left|now right; right].
Qed.

Lemma checkInstallationDir_classified (installationDir path : option jsstring) :
  never_unsupported (checkInstallationDir installationDir path).
Proof.
  destruct installationDir as [[|c dir]|]; exact I.
Qed.

Lemma getRscriptPath_win (h : Host) (path : option jsstring) :
  getCurrentOs h = js "win" -> getRscriptPath h path = windowsCase h path.
Proof.
  intros E. unfold getRscriptPath. rewrite E. reflexivity.
Qed.

Lemma getRscriptPath_unix (h : Host) (path : option jsstring) :
  getCurrentOs h = js "lin" \/ getCurrentOs h = js "mac" ->
  getRscriptPath h path = unixCase h path.
Proof.
  intros [E|E]; unfold getRscriptPath; rewrite E; reflexivity.
Qed.

Lemma getRscriptPath_classified (h : Host) (path : option jsstring) :
  never_unsupported (getRscriptPath h path).
Proof.
  destruct (getCurrentOs_cases h) as [E|E].
  - rewrite (getRscriptPath_win h path E). unfold windowsCase.
    destruct (fs_existsSync h _); [|apply checkInstallationDir_classified].
    destruct (fs_readdirSync h _) as [[|d ds]|];
      first [apply checkInstallationDir_classified | exact I].
  - rewrite (getRscriptPath_unix h path E). unfold unixCase.
    destruct (negb (truthy path)).
    + destruct (truthy _); apply checkInstallationDir_classified.
    + destruct (fs_existsSync h _); apply checkInstallationDir_classified.
Qed.

Lemma outputOrThrow_classified (h : Host) (r : ShellResult) :
  never_unsupported (outputOrThrow h r).
Proof.
  unfold outputOrThrow. destruct (truthy (stdout r)); exact I.
Qed.

Lemma bind_classified {A B : Type} (c : Completion A) (k : A -> Completion B) :
  never_unsupported c -> (forall a, never_unsupported (k a)) ->
  never_unsupported (bind c k).
Proof.
  intros Hc Hk. destruct c as [a|e]; [apply Hk|exact Hc].
Qed.

Lemma validation_classified :
  classified (Error_ INVALID_FILE_CALL) /\ classified (Error_ INVALID_STANDARD_CALL).
Proof.
  split; intro H; vm_compute in H; discriminate H.
Qed.

Lemma executeRScript_file_message_classified (fileLocation : jsstring) :
  classified (Error_ (js "ERROR: the file " ++ [DQUOTE] ++ fileLocation ++ [DQUOTE]
                      ++ js " doesn't exist")).
Proof.
  intro H. vm_compute in H. discriminate H.
Qed.

(** C9. Whatever the platform identifier of the host, the classifier answers
    [win], [lin] or [mac]; hence the [default] branch of the locator is never
    taken, and none of the six public operations, on any arguments, ends
    with the error [Cannot determine OS type]. *)
Theorem unsupported_platform_unreachable (h : Host) :
  (getCurrentOs h = js "win" \/ getCurrentOs h = js "lin" \/ getCurrentOs h = js "mac")
  /\ (forall path, getRscriptPath h path <> Throw (Error_ CANNOT_DETERMINE_OS))
  /\ (forall command loc,
        executeRCommand h command loc <> Throw (Error_ CANNOT_DETERMINE_OS)
        /\ executeRCommandAsync h command loc <> Throw (Error_ CANNOT_DETERMINE_OS))
  /\ (forall fileLocation loc,
        executeRScript h fileLocation loc <> Throw (Error_ CANNOT_DETERMINE_OS))
  /\ (forall fileLocation methodName params loc,
        callMethod h fileLocation methodName params loc <> Throw (Error_ CANNOT_DETERMINE_OS)
        /\ callMethodAsync h fileLocation methodName params loc
           <> Throw (Error_ CANNOT_DETERMINE_OS))
  /\ (forall methodName params loc,
        callStandardMethod h methodName params loc <> Throw (Error_ CANNOT_DETERMINE_OS)).
Proof.
  assert (never : forall (c : Completion (list ParsedValue)),
             never_unsupported c -> c <> Throw (Error_ CANNOT_DETERMINE_OS)).
  { intros c Hc Heq. rewrite Heq in Hc. now apply Hc. }
  assert (sync : forall command loc, never_unsupported (executeRCommand h command loc)).
  { intros. apply bind_classified; [apply getRscriptPath_classified|].
    intros. apply outputOrThrow_classified. }
  assert (async : forall command loc, never_unsupported (executeRCommandAsync h command loc)).
  { intros. apply bind_classified; [apply getRscriptPath_classified|].
    intros. apply outputOrThrow_classified. }
  destruct validation_classified as [Vfile Vstd].
  split; [apply getCurrentOs_cases|].
  split.
  { intros path Heq. pose proof (getRscriptPath_classified h path) as Hc.
    rewrite Heq in Hc. now apply Hc. }
  split; [intros; split; apply never; auto|].
  split.
  { intros. apply never. apply bind_classified; [apply getRscriptPath_classified|].
    intros p. destruct (negb (fs_existsSync h fileLocation)).
    - apply executeRScript_file_message_classified.
    - apply outputOrThrow_classified. }
  split.
  { intros. split; apply never.
    - unfold callMethod. destruct params; [|exact Vfile].
      destruct (negb (truthy methodName) || negb (truthy fileLocation));
        [exact Vfile|apply sync].
    - unfold callMethodAsync. destruct params; [|exact Vfile].
      destruct (negb (truthy methodName) || negb (truthy fileLocation));
        [exact Vfile|apply async]. }
  intros. apply never. unfold callStandardMethod. destruct params; [|exact Vstd].
  destruct (negb (truthy methodName)); [exact Vstd|apply sync].
Qed.

Example REngineNotFoundError_message_override :
  REngineNotFoundError_message (Some (js "/opt/R/Rscript"))
  = js "R Engine not found. See www.r-project.org. (path: /opt/R/Rscript)".
Proof. reflexivity. Qed.

Example getRscriptPath_which :
  getRscriptPath (linux_host [] (fun _ => exits_ok (js "/usr/bin/Rscript" ++ [LF]) [])) None
  = Return (js "/usr/bin/Rscript").
Proof. reflexivity. Qed.

(** C3, as stated, fails: on a Linux host where [/opt/R/Rscript] does not
    exist, the locator given the override [/opt/R] throws the engine-not-found
    error with [/opt/R/Rscript], not with [/opt/R]. *)
Lemma missing_override_error_path_differs :
  ~ (forall (h : Host) (D : jsstring),
       getCurrentOs h = js "lin" \/ getCurrentOs h = js "mac" ->
       truthy (Some D) = true ->
       fs_existsSync h (pt_join h [D; js "Rscript"]) = false ->
       getRscriptPath h (Some D) = Throw (REngineNotFoundError (Some D))).
Proof.
  intros claim.
  specialize (claim (linux_host [] (fun _ => exits_ok [] [])) (js "/opt/R")).
  specialize (claim (or_introl eq_refl) eq_refl eq_refl).
  vm_compute in claim.
  discriminate claim.
Qed.

(** C3, amended. On a Unix-like classification, for every non-empty override
    directory [D] such that no file exists at [path.join(D, "Rscript")], the
    locator throws the engine-not-found error carrying that composed
    location. *)
Theorem locate_missing_override (h : Host) (D : jsstring) :
  getCurrentOs h = js "lin" \/ getCurrentOs h = js "mac" ->
  truthy (Some D) = true ->
  fs_existsSync h (pt_join h [D; js "Rscript"]) = false ->
  getRscriptPath h (Some D)
  = Throw (REngineNotFoundError (Some (pt_join h [D; js "Rscript"]))).
Proof.
  intros Hos HD Hmissing.
  rewrite (getRscriptPath_unix h (Some D) Hos). unfold unixCase.
  rewrite HD. cbn [negb template_text]. rewrite Hmissing. reflexivity.
Qed.

Lemma locate_missing_override_witness :
  getRscriptPath (linux_host [] (fun _ => exits_ok [] [])) (Some (js "/opt/R"))
  = Throw (REngineNotFoundError (Some (js "/opt/R/Rscript"))).
Proof.
  apply (locate_missing_override (linux_host [] (fun _ => exits_ok [] [])) (js "/opt/R"));
    [left; reflexivity | reflexivity | reflexivity].
Defined.

(** ** Process executor *)

(** C2, as stated, fails for the promise-based executor: for a command that
    prints a value and a warning, its result holds both texts. *)
Lemma executor_result_both_populated :
  ~ (forall (h : Host) (command : jsstring),
       exactly_one_populated (executeShellCommand h command)
       /\ exactly_one_populated (execShellCommandAsync h command)).
Proof.
  intros claim.
  destruct (claim (linux_host [] (fun _ => exits_ok (js "[1] 1") (js "Warning message")))
                  (js "Rscript -e 1")) as [_ Hasync].
  vm_compute in Hasync. discriminate Hasync.
Qed.

(** C2, amended. The result of the blocking executor has exactly one field
    defined: [stdout], holding the raw text, when the command succeeded, and
    [stderr], holding the thrown error, otherwise.  The result of the
    promise-based executor always has both fields defined: [stdout] holds the
    raw text, and [stderr] the message of the error or, without an error, the
    text of the diagnostic stream. *)
Theorem executor_result_shape (h : Host) (command : jsstring) :
  let p := child_process h command in
  exactly_one_populated (executeShellCommand h command)
  /\ executeShellCommand h command
     = match proc_error p with
       | None => {| stdout := Some (proc_stdout p); stderr := DUndefined |}
       | Some failure => {| stdout := None; stderr := DError (thrown failure) |}
       end
  /\ stdout_populated (execShellCommandAsync h command) = true
  /\ stderr_populated (execShellCommandAsync h command) = true
  /\ stdout (execShellCommandAsync h command) = Some (proc_stdout p)
  /\ stderr (execShellCommandAsync h command)
     = DText (match proc_error p with
              | Some failure => message (reported failure)
              | None => proc_stderr p
              end).
Proof.
  unfold exactly_one_populated, stdout_populated, stderr_populated,
    executeShellCommand, execShellCommandAsync.
  cbn zeta. destruct (proc_error (child_process h command)); cbn; auto 10.
Qed.

(** ** Invocation facade *)

Lemma executeRCommand_located (h : Host) (command : jsstring) (loc : option jsstring)
  (p : jsstring) :
  getRscriptPath h loc = Return p ->
  executeRCommand h command loc
  = outputOrThrow h (executeShellCommand h (expressionCommandLine p command)).
Proof.
  intros Hp. unfold executeRCommand. rewrite Hp. reflexivity.
Qed.

Lemma executeRCommandAsync_located (h : Host) (command : jsstring)
  (loc : option jsstring) (p : jsstring) :
  getRscriptPath h loc = Return p ->
  executeRCommandAsync h command loc
  = outputOrThrow h (execShellCommandAsync h (expressionCommandLine p command)).
Proof.
  intros Hp. unfold executeRCommandAsync. rewrite Hp. reflexivity.
Qed.

Lemma executeRScript_located (h : Host) (fileLocation : jsstring)
  (loc : option jsstring) (p : jsstring) :
  getRscriptPath h loc = Return p ->
  fs_existsSync h fileLocation = true ->
  executeRScript h fileLocation loc
  = outputOrThrow h (executeShellCommand h (scriptCommandLine p fileLocation)).
Proof.
  intros Hp Hf. unfold executeRScript. rewrite Hp. cbn [bind]. rewrite Hf. reflexivity.
Qed.

Lemma outputOrThrow_blocking (h : Host) (command : jsstring) :
  outputOrThrow h (executeShellCommand h command)
  = blockingOutcome h (child_process h command).
Proof.
  unfold outputOrThrow, executeShellCommand, blockingOutcome.
  destruct (proc_error (child_process h command)); [reflexivity|].
  cbn. destruct (proc_stdout (child_process h command)); reflexivity.
Qed.

Lemma outputOrThrow_promise (h : Host) (command : jsstring) :
  outputOrThrow h (execShellCommandAsync h command)
  = promiseOutcome h (child_process h command).
Proof.
  unfold outputOrThrow, execShellCommandAsync, promiseOutcome.
  cbn. destruct (proc_stdout (child_process h command)); [|reflexivity].
  destruct (proc_error (child_process h command)); reflexivity.
Qed.

(** C5, as stated, fails: a script that prints a value and then stops with an
    error has produced stdout, yet the blocking runner throws the
    script-execution error. *)
Lemma script_error_despite_stdout :
  ~ (forall (h : Host) (command : jsstring) (loc : option jsstring) (p : jsstring),
       getRscriptPath h loc = Return p ->
       (throws_script_error (executeRCommand h command loc)
        <-> proc_stdout (child_process h (expressionCommandLine p command)) = [])).
Proof.
  intros claim.
  pose (h := linux_host [js "/opt/R/Rscript"]
               (fun c => exits_failed c (js "[1] 1") (js "Error: boom"))).
  destruct (claim h (js "print(1); stop('boom')") (Some (js "/opt/R")) (js "/opt/R/Rscript")
                  eq_refl) as [Hthrows _].
  assert (Hnil : proc_stdout (child_process h
                   (expressionCommandLine (js "/opt/R/Rscript") (js "print(1); stop('boom')")))
                 = []).
  { apply Hthrows. eexists. vm_compute. reflexivity. }
  vm_compute in Hnil. discriminate Hnil.
Qed.

(** C5, amended. Once the engine is located (and, for a script file, the file
    exists), a runner throws the script-execution error if and only if the
    [stdout] field of its executor's result is undefined or empty: for the
    blocking runners when the subprocess failed or wrote nothing to stdout, for
    the promise-based runner when the subprocess wrote nothing to stdout.  The
    error carries the [stderr] field of that result: the error child_process
    threw, or [undefined], for the blocking runners; the message of the error,
    or else the text of the diagnostic stream, for the promise-based runner.
    Otherwise the parsed stdout is returned. *)
Theorem facade_script_error (h : Host) (loc : option jsstring) (p : jsstring) :
  getRscriptPath h loc = Return p ->
  (forall command,
     let proc := child_process h (expressionCommandLine p command) in
     executeRCommand h command loc = blockingOutcome h proc
     /\ executeRCommandAsync h command loc = promiseOutcome h proc
     /\ (throws_script_error (executeRCommand h command loc)
         <-> proc_error proc <> None \/ proc_stdout proc = [])
     /\ (throws_script_error (executeRCommandAsync h command loc)
         <-> proc_stdout proc = []))
  /\ (forall fileLocation,
        fs_existsSync h fileLocation = true ->
        let proc := child_process h (scriptCommandLine p fileLocation) in
        executeRScript h fileLocation loc = blockingOutcome h proc
        /\ (throws_script_error (executeRScript h fileLocation loc)
            <-> proc_error proc <> None \/ proc_stdout proc = [])).
Proof.
  intros Hp.
  assert (Hblock : forall proc,
            throws_script_error (blockingOutcome h proc)
            <-> proc_error proc <> None \/ proc_stdout proc = []).
  { intros proc. unfold throws_script_error, blockingOutcome.
    destruct (proc_error proc) as [e|]; [|destruct (proc_stdout proc)]; split.
    - intros _. left. discriminate.
    - intros _. eexists. reflexivity.
    - intros _. right. reflexivity.
    - intros _. eexists. reflexivity.
    - intros [d Hd]. discriminate Hd.
    - intros [H|H]; [now elim H|discriminate H]. }
  assert (Hprom : forall proc,
            throws_script_error (promiseOutcome h proc) <-> proc_stdout proc = []).
  { intros proc. unfold throws_script_error, promiseOutcome.
    destruct (proc_stdout proc); split.
    - reflexivity.
    - intros _. eexists. reflexivity.
    - intros [d Hd]. discriminate Hd.
    - intros H. discriminate H. }
  split.
  - intros command proc.
    rewrite (executeRCommand_located h command loc p Hp), outputOrThrow_blocking.
    rewrite (executeRCommandAsync_located h command loc p Hp), outputOrThrow_promise.
    fold proc. auto.
  - intros fileLocation Hfile proc.
    rewrite (executeRScript_located h fileLocation loc p Hp Hfile), outputOrThrow_blocking.
    fold proc. auto.
Qed.

Lemma facade_script_error_witness :
  let h := linux_host [js "/opt/R/Rscript"; js "job.R"]
             (fun c => exits_failed c [] (js "Error: boom")) in
  throws_script_error (executeRCommand h (js "stop('boom')") (Some (js "/opt/R")))
  /\ throws_script_error (executeRScript h (js "job.R") (Some (js "/opt/R"))).
Proof.
  intros h.
  destruct (facade_script_error h (Some (js "/opt/R")) (js "/opt/R/Rscript") eq_refl)
    as [Hexpr Hfile].
  split.
  - apply (Hexpr (js "stop('boom')")). left. discriminate.
  - apply (Hfile (js "job.R") eq_refl). left. discriminate.
Defined.

(** C7, as stated, fails: for a script that prints a value and then stops with
    an error, the blocking runner throws and the promise-based runner returns
    the parsed value. *)
Lemma runners_disagree :
  ~ (forall (h : Host) (command : jsstring) (loc : option jsstring),
       same_outcome (executeRCommand h command loc) (executeRCommandAsync h command loc)).
Proof.
  intros claim.
  specialize (claim (linux_host [js "/opt/R/Rscript"]
                       (fun c => exits_failed c (js "[1] 1") (js "Error: boom")))
                    (js "print(1); stop('boom')") (Some (js "/opt/R"))).
  vm_compute in claim. exact claim.
Qed.

(** For a command that exits with a status other than zero, the error of
    [execSync] and the error of [exec] have the same message exactly when the
    command wrote to its diagnostic stream. *)
Lemma exitFailure_same_message (command err : jsstring) :
  message (thrown (exitFailure command err)) = message (reported (exitFailure command err))
  <-> err <> [].
Proof.
  unfold exitFailure. cbn [thrown reported message]. destruct err as [|c err].
  - split; [|intros H; now elim H].
    intros H. apply app_inv_head in H. apply app_inv_head in H. discriminate H.
  - split; [discriminate|reflexivity].
Qed.

(** When such a command writes to neither stream, both runners throw the
    script-execution error, but with messages that differ by a line feed. *)
Lemma runners_differ_without_diagnostic (h : Host) (command : jsstring)
  (loc : option jsstring) (p : jsstring) :
  getRscriptPath h loc = Return p ->
  child_process h (expressionCommandLine p command)
  = exits_failed (expressionCommandLine p command) [] [] ->
  executeRCommand h command loc
  = Throw (RScriptError
             (DError {| message := js "Command failed: "
                                   ++ expressionCommandLine p command |}))
  /\ executeRCommandAsync h command loc
     = Throw (RScriptError
                (DText (js "Command failed: " ++ expressionCommandLine p command ++ [LF])))
  /\ ~ same_outcome (executeRCommand h command loc) (executeRCommandAsync h command loc).
Proof.
  intros Hp Hproc.
  rewrite (executeRCommand_located h command loc p Hp), outputOrThrow_blocking.
  rewrite (executeRCommandAsync_located h command loc p Hp), outputOrThrow_promise.
  rewrite Hproc. unfold blockingOutcome, promiseOutcome, exits_failed, exitFailure.
  cbn [proc_error proc_stdout proc_stderr thrown reported message].
  rewrite !app_nil_r. split; [reflexivity|]. split; [reflexivity|].
  unfold same_outcome, diagnostic_content. cbn [message]. intros H.
  apply (f_equal (fun text => match text with
                              | Some x => List.length x
                              | None => 0
                              end)) in H.
  cbn beta iota in H. rewrite !length_app in H. cbn [List.length] in H. lia.
Qed.

(** C7, amended. For every command whose subprocess, once the engine is
    located, either exits with status zero after writing to stdout, or fails
    without writing to stdout while the error [execSync] throws and the error
    [exec] reports have the same message, the two expression runners produce
    the same outcome: the same parsed output when it succeeds, and when it
    fails a script-execution error with the same diagnostic content (the
    blocking runner carries the error object, the promise-based runner the
    message string); when the engine is not located both throw the locator's
    error. *)
Theorem runners_agree (h : Host) (command : jsstring) (loc : option jsstring) :
  (forall p, getRscriptPath h loc = Return p ->
             runners_comparable (child_process h (expressionCommandLine p command))) ->
  same_outcome (executeRCommand h command loc) (executeRCommandAsync h command loc).
Proof.
  intros Hproc.
  destruct (getRscriptPath h loc) as [p|e] eqn:Hp.
  - rewrite (executeRCommand_located h command loc p Hp), outputOrThrow_blocking.
    rewrite (executeRCommandAsync_located h command loc p Hp), outputOrThrow_promise.
    unfold blockingOutcome, promiseOutcome, same_outcome.
    destruct (Hproc p eq_refl) as [[Hok Hout]|[failure [Hfail [Hout Hsame]]]].
    + rewrite Hok. destruct (proc_stdout _); [now elim Hout|reflexivity].
    + rewrite Hfail, Hout. cbn [diagnostic_content]. now rewrite Hsame.
  - unfold executeRCommand, executeRCommandAsync. rewrite Hp. cbn.
    destruct e; reflexivity.
Qed.

Lemma runners_agree_witness :
  let h := linux_host [js "/opt/R/Rscript"]
             (fun c => exits_failed c [] (js "Error: boom")) in
  same_outcome (executeRCommand h (js "stop('boom')") (Some (js "/opt/R")))
               (executeRCommandAsync h (js "stop('boom')") (Some (js "/opt/R"))).
Proof.
  intros h. apply (runners_agree h (js "stop('boom')") (Some (js "/opt/R"))).
  intros p Hp. right.
  exists (exitFailure (expressionCommandLine p (js "stop('boom')")) (js "Error: boom")).
  split; [reflexivity|]. split; [reflexivity|].
  apply exitFailure_same_message. discriminate.
Defined.

Lemma blockingOutcome_silent (h : Host) (proc : ProcOutcome) :
  silent proc -> blockingOutcome h proc = Throw (RScriptError DUndefined).
Proof.
  intros [Hok Hout]. unfold blockingOutcome. rewrite Hok, Hout. reflexivity.
Qed.

Lemma promiseOutcome_silent (h : Host) (proc : ProcOutcome) :
  silent proc -> promiseOutcome h proc = Throw (RScriptError (DText (proc_stderr proc))).
Proof.
  intros [Hok Hout]. unfold promiseOutcome. rewrite Hok, Hout. reflexivity.
Qed.

(** C10. When the engine is located and the subprocess of an operation exits
    with status zero without writing to stdout, the operation throws the
    script-execution error: the blocking operations with an absent
    diagnostic, the promise-based ones with the text of the diagnostic stream
    (empty when that stream is empty); no operation returns a parsed result.
    For the call operations the arguments are those that pass the validation,
    and for the script runner the file exists. *)
Theorem silent_script_is_failure (h : Host) (loc : option jsstring) (p : jsstring) :
  getRscriptPath h loc = Return p ->
  (forall command,
     let proc := child_process h (expressionCommandLine p command) in
     silent proc ->
     executeRCommand h command loc = Throw (RScriptError DUndefined)
     /\ executeRCommandAsync h command loc = Throw (RScriptError (DText (proc_stderr proc)))
     /\ silent_failure (executeRCommand h command loc) proc
     /\ silent_failure (executeRCommandAsync h command loc) proc)
  /\ (forall fileLocation,
        let proc := child_process h (scriptCommandLine p fileLocation) in
        fs_existsSync h fileLocation = true ->
        silent proc ->
        silent_failure (executeRScript h fileLocation loc) proc)
  /\ (forall fileLocation methodName params,
        let proc := child_process h
                      (expressionCommandLine p
                         (sourceAndPrint fileLocation (methodSyntax methodName params))) in
        truthy (Some fileLocation) = true ->
        truthy (Some methodName) = true ->
        silent proc ->
        silent_failure
          (callMethod h (Some fileLocation) (Some methodName) (Some params) loc) proc
        /\ silent_failure
             (callMethodAsync h (Some fileLocation) (Some methodName) (Some params) loc) proc)
  /\ (forall methodName params,
        let proc := child_process h
                      (expressionCommandLine p (printOnly (methodSyntax methodName params))) in
        truthy (Some methodName) = true ->
        silent proc ->
        silent_failure (callStandardMethod h (Some methodName) (Some params) loc) proc).
Proof.
  intros Hp.
  assert (Hsync : forall command,
            silent (child_process h (expressionCommandLine p command)) ->
            executeRCommand h command loc = Throw (RScriptError DUndefined)).
  { intros command Hs.
    rewrite (executeRCommand_located h command loc p Hp), outputOrThrow_blocking.
    now apply blockingOutcome_silent. }
  assert (Hasync : forall command,
            silent (child_process h (expressionCommandLine p command)) ->
            executeRCommandAsync h command loc
            = Throw (RScriptError
                       (DText (proc_stderr (child_process h (expressionCommandLine p command)))))).
  { intros command Hs.
    rewrite (executeRCommandAsync_located h command loc p Hp), outputOrThrow_promise.
    now apply promiseOutcome_silent. }
  assert (Hleft : forall c proc, c = Throw (RScriptError DUndefined) -> silent_failure c proc).
  { intros c proc ->. split; [now left|discriminate]. }
  assert (Hright : forall c proc,
            c = Throw (RScriptError (DText (proc_stderr proc))) -> silent_failure c proc).
  { intros c proc ->. split; [now right|discriminate]. }
  split; [|split; [|split]].
  - intros command proc Hs.
    split; [now apply Hsync|]. split; [now apply Hasync|].
    split; [apply Hleft; now apply Hsync | apply Hright; now apply Hasync].
  - intros fileLocation proc Hfile Hs. apply Hleft.
    rewrite (executeRScript_located h fileLocation loc p Hp Hfile), outputOrThrow_blocking.
    now apply blockingOutcome_silent.
  - intros fileLocation methodName params proc Hf Hm Hs.
    unfold callMethod, callMethodAsync. rewrite Hf, Hm. cbn [negb orb template_text].
    split; [apply Hleft; now apply Hsync | apply Hright; now apply Hasync].
  - intros methodName params proc Hm Hs.
    unfold callStandardMethod. rewrite Hm. cbn [negb template_text].
    apply Hleft. now apply Hsync.
Qed.

Lemma silent_script_is_failure_witness :
  let h := linux_host [js "/opt/R/Rscript"; js "job.R"] (fun _ => exits_ok [] []) in
  executeRCommand h (js "invisible(1)") (Some (js "/opt/R")) = Throw (RScriptError DUndefined)
  /\ executeRCommandAsync h (js "invisible(1)") (Some (js "/opt/R"))
     = Throw (RScriptError (DText []))
  /\ (forall data, executeRScript h (js "job.R") (Some (js "/opt/R")) <> Return data)
  /\ (forall data,
        callMethod h (Some (js "job.R")) (Some (js "f")) (Some (Positional [PScalar (js "1")]))
          (Some (js "/opt/R")) <> Return data)
  /\ (forall data,
        callStandardMethod h (Some (js "invisible")) (Some (Positional [PScalar (js "1")]))
          (Some (js "/opt/R")) <> Return data).
Proof.
  intros h.
  destruct (silent_script_is_failure h (Some (js "/opt/R")) (js "/opt/R/Rscript") eq_refl)
    as [Hexpr [Hfile [Hcall Hstd]]].
  assert (Hs : silent (exits_ok [] [])) by (split; reflexivity).
  destruct (Hexpr (js "invisible(1)") Hs) as [Hsync [Hasync _]].
  split; [exact Hsync|]. split; [exact Hasync|].
  split; [apply (Hfile (js "job.R") eq_refl Hs)|].
  split.
  - apply (Hcall (js "job.R") (js "f") (Positional [PScalar (js "1")]) eq_refl eq_refl Hs).
  - apply (Hstd (js "invisible") (Positional [PScalar (js "1")]) eq_refl Hs).
Defined.

(** ** Call synthesizer *)

(** Induction on parameter values that reaches the items of an array. *)
Lemma ParameterValue_nested_ind (P : ParameterValue -> Prop) :
  (forall items, Forall P items -> P (PArray items)) ->
  (forall s, P (PString s)) ->
  P PUndefined ->
  (forall text, P (PScalar text)) ->
  forall p, P p.
Proof.
  intros Harray Hstring Hundefined Hscalar.
  fix IH 1. intros [items|s| |text].
  - apply Harray. induction items as [|p items IHitems]; constructor.
    + apply IH.
    + exact IHitems.
  - apply Hstring.
  - exact Hundefined.
  - apply Hscalar.
Qed.

Lemma fold_left_append {A : Type} (f : A -> jsstring) (items : list A) (start : jsstring) :
  fold_left (fun acc p => acc ++ f p) items start = start ++ concat (List.map f items).
Proof.
  revert start. induction items as [|p items IH]; intros start; cbn.
  - now rewrite app_nil_r.
  - rewrite IH. now rewrite <- app_assoc.
Qed.

Lemma convertParamsArray_array (items : list ParameterValue) :
  convertParamsArray (PArray items)
  = slice_0_m1 (js "c(" ++ serializedItems items) ++ js "),".
Proof.
  cbn [convertParamsArray]. now rewrite fold_left_append.
Qed.

Lemma namedEntry_append (acc : jsstring) (kv : jsstring * ParameterValue) :
  namedEntry acc kv = acc ++ namedEntry [] kv.
Proof.
  destruct kv as [key [items|s| |text]]; reflexivity.
Qed.

Lemma fold_namedEntry_append (entries : list (jsstring * ParameterValue)) (start : jsstring) :
  fold_left namedEntry entries start = start ++ serializedEntries entries.
Proof.
  unfold serializedEntries. revert start.
  induction entries as [|kv entries IH]; intros start; cbn [fold_left].
  - now rewrite app_nil_r.
  - rewrite IH, (IH (namedEntry [] kv)), (namedEntry_append start kv).
    now rewrite app_assoc.
Qed.

Lemma serializedItems_app (pre post : list ParameterValue) :
  serializedItems (pre ++ post) = serializedItems pre ++ serializedItems post.
Proof.
  unfold serializedItems. now rewrite map_app, concat_app.
Qed.

Lemma serializedEntries_app (pre post : list (jsstring * ParameterValue)) :
  serializedEntries (pre ++ post) = serializedEntries pre ++ serializedEntries post.
Proof.
  unfold serializedEntries at 1. rewrite fold_left_app.
  now rewrite fold_namedEntry_append.
Qed.

Lemma slice_before_following (before rest : jsstring) :
  slice_0_m1 (before ++ COMMA :: rest) = before ++ following rest.
Proof.
  unfold slice_0_m1, following. destruct rest as [|c rest].
  - rewrite app_nil_r. apply (removelast_last before COMMA).
  - rewrite removelast_app by discriminate.
    change (removelast (COMMA :: c :: rest)) with (COMMA :: removelast (c :: rest)).
    reflexivity.
Qed.

Lemma slice_append_one (s : jsstring) (c : N) : slice_0_m1 (s ++ [c]) = s.
Proof.
  apply removelast_last.
Qed.

(** The call text once one positional parameter is singled out: [text] is what
    the parameter contributes before its separator. *)
Lemma methodSyntax_positional_at (methodName text : jsstring)
  (pre post : list ParameterValue) (v : ParameterValue) :
  convertParamsArray v = text ++ [COMMA] ->
  methodSyntax methodName (Positional (pre ++ v :: post))
  = methodName ++ js "(c(" ++ serializedItems pre ++ text
    ++ following (serializedItems post) ++ js "))".
Proof.
  intros Hv. unfold methodSyntax. rewrite convertParamsArray_array.
  rewrite serializedItems_app.
  change (serializedItems (v :: post)) with (convertParamsArray v ++ serializedItems post).
  rewrite Hv.
  replace (js "c(" ++ serializedItems pre ++ (text ++ [COMMA]) ++ serializedItems post)
    with ((js "c(" ++ serializedItems pre ++ text) ++ COMMA :: serializedItems post)
    by (rewrite <- !app_assoc; reflexivity).
  rewrite slice_before_following.
  replace ((methodName ++ js "(")
           ++ ((js "c(" ++ serializedItems pre ++ text) ++ following (serializedItems post))
           ++ js "),")
    with ((methodName ++ js "(c(" ++ serializedItems pre ++ text
           ++ following (serializedItems post) ++ js ")") ++ [COMMA])
    by (rewrite <- !app_assoc; reflexivity).
  rewrite slice_append_one. rewrite <- !app_assoc. reflexivity.
Qed.

(** The same for one entry of a named call: [text] is what the entry
    contributes before its separator. *)
Lemma methodSyntax_named_at (methodName text : jsstring)
  (pre post : list (jsstring * ParameterValue)) (kv : jsstring * ParameterValue) :
  namedEntry [] kv = text ++ [COMMA] ->
  methodSyntax methodName (Named (pre ++ kv :: post))
  = methodName ++ js "(" ++ serializedEntries pre ++ text
    ++ following (serializedEntries post) ++ js ")".
Proof.
  intros Hkv. unfold methodSyntax. rewrite fold_namedEntry_append.
  rewrite serializedEntries_app.
  replace (serializedEntries (kv :: post))
    with (namedEntry [] kv ++ serializedEntries post)
    by (unfold serializedEntries at 2; cbn [fold_left];
        now rewrite fold_namedEntry_append).
  rewrite Hkv.
  replace ((methodName ++ js "(")
           ++ serializedEntries pre ++ (text ++ [COMMA]) ++ serializedEntries post)
    with ((methodName ++ js "(" ++ serializedEntries pre ++ text)
          ++ COMMA :: serializedEntries post)
    by (rewrite <- !app_assoc; reflexivity).
  rewrite slice_before_following. rewrite <- !app_assoc. reflexivity.
Qed.

(** C8. In a positional call and in a named call, whatever the other
    parameters are, a string parameter is emitted between single quotes with
    its code units unchanged, and a missing value is emitted as the two
    letters [NA]; so ["a'b"] gives ['a'b']. *)
Theorem scalars_emitted_verbatim (methodName : jsstring) :
  (forall pre post s,
     methodSyntax methodName (Positional (pre ++ PString s :: post))
     = methodName ++ js "(c(" ++ serializedItems pre
       ++ ([QUOTE] ++ s ++ [QUOTE])
       ++ following (serializedItems post) ++ js "))")
  /\ (forall pre post,
        methodSyntax methodName (Positional (pre ++ PUndefined :: post))
        = methodName ++ js "(c(" ++ serializedItems pre
          ++ js "NA"
          ++ following (serializedItems post) ++ js "))")
  /\ (forall pre post key s,
        methodSyntax methodName (Named (pre ++ (key, PString s) :: post))
        = methodName ++ js "(" ++ serializedEntries pre
          ++ (key ++ js "=" ++ [QUOTE] ++ s ++ [QUOTE])
          ++ following (serializedEntries post) ++ js ")")
  /\ (forall pre post key,
        methodSyntax methodName (Named (pre ++ (key, PUndefined) :: post))
        = methodName ++ js "(" ++ serializedEntries pre
          ++ (key ++ js "=" ++ js "NA")
          ++ following (serializedEntries post) ++ js ")")
  /\ methodSyntax (js "f") (Positional [PString (js "a'b")]) = js "f(c('a'b'))"
  /\ methodSyntax (js "f") (Named [(js "x", PString (js "a'b")); (js "y", PUndefined)])
     = js "f(x='a'b',y=NA)".
Proof.
  split; [|split; [|split; [|split; [|split]]]].
  - intros pre post s. apply methodSyntax_positional_at. now string_normalize.
  - intros pre post. apply methodSyntax_positional_at. reflexivity.
  - intros pre post key s. apply methodSyntax_named_at. now string_normalize.
  - intros pre post key. apply methodSyntax_named_at. now string_normalize.
  - reflexivity.
  - reflexivity.
Qed.

Lemma convertParamsArray_ends_with_comma (p : ParameterValue) :
  exists text, convertParamsArray p = text ++ [COMMA].
Proof.
  destruct p as [items|s| |text].
  - rewrite convertParamsArray_array.
    exists (slice_0_m1 (js "c(" ++ serializedItems items) ++ js ")").
    now string_normalize.
  - exists ([QUOTE] ++ s ++ [QUOTE]). now string_normalize.
  - exists (js "NA"). reflexivity.
  - exists text. reflexivity.
Qed.

Lemma serializedItems_join (items : list ParameterValue) (texts : list jsstring) :
  items <> [] ->
  Forall2 (fun p text => convertParamsArray p = text ++ [COMMA]) items texts ->
  serializedItems items = join_with [COMMA] texts ++ [COMMA].
Proof.
  intros Hne H. induction H as [|p text items texts Hp Hrest IH]; [now elim Hne|].
  unfold serializedItems in *. cbn [List.map concat]. rewrite Hp.
  destruct Hrest as [|p' text' items' texts' Hp' Hrest'].
  - cbn. now rewrite app_nil_r.
  - rewrite IH by discriminate.
    change (join_with [COMMA] (text :: text' :: texts'))
      with (text ++ [COMMA] ++ join_with [COMMA] (text' :: texts')).
    now rewrite <- !app_assoc.
Qed.

(** On arrays that are non-empty at every level the source and the
    specification's wording agree. *)
Lemma convertParamsArray_serialize (p : ParameterValue) :
  lists_nonempty p = true ->
  convertParamsArray p = serialize p ++ [COMMA].
Proof.
  induction p as [items IH|s| |text] using ParameterValue_nested_ind; intros Hne.
  - rewrite convertParamsArray_array.
    assert (Hitems : items <> []) by (destruct items; [discriminate Hne|discriminate]).
    assert (Hall : forallb lists_nonempty items = true)
      by (destruct items; [discriminate Hne|exact Hne]).
    rewrite (serializedItems_join items (List.map serialize items) Hitems).
    + rewrite app_assoc, slice_append_one. cbn [serialize]. now string_normalize.
    + clear Hitems Hne. induction IH as [|p items Hp _ IHitems]; cbn [List.map].
      * constructor.
      * cbn [forallb] in Hall. apply andb_prop in Hall as [Hp1 Hrest].
        constructor; auto.
  - now string_normalize.
  - reflexivity.
  - reflexivity.
Qed.

Lemma paren_scan_app (s rest : jsstring) (depth deepest : nat) :
  paren_scan depth deepest (s ++ rest)
  = match paren_scan depth deepest s with
    | Some (depth', deepest') => paren_scan depth' deepest' rest
    | None => None
    end.
Proof.
  revert depth deepest. induction s as [|c s IH]; intros depth deepest; cbn.
  - reflexivity.
  - destruct (N.eqb c LPAREN); [apply IH|].
    destruct (N.eqb c RPAREN); [|apply IH].
    destruct depth; [reflexivity|apply IH].
Qed.

Lemma paren_scan_paren_free (s : jsstring) (depth deepest : nat) :
  paren_free s = true -> paren_scan depth deepest s = Some (depth, deepest).
Proof.
  unfold paren_free. induction s as [|c s IH]; cbn; intros H; [reflexivity|].
  apply andb_prop in H as [Hc Hs].
  destruct (N.eqb c LPAREN); [discriminate Hc|].
  destruct (N.eqb c RPAREN); [discriminate Hc|]. now apply IH.
Qed.

(** Reading the serialization of [p] from depth [depth] comes back to that
    depth after having gone [nesting_depth p] deeper. *)
Lemma paren_scan_serialize (p : ParameterValue) :
  lists_nonempty p = true -> atoms_paren_free p = true ->
  forall depth deepest,
    depth <= deepest ->
    paren_scan depth deepest (serialize p)
    = Some (depth, Nat.max deepest (depth + nesting_depth p)).
Proof.
  induction p as [items IH|s| |text] using ParameterValue_nested_ind;
    intros Hne Hfree depth deepest Hle.
  - cbn [serialize nesting_depth].
    change (js "c(" ++ join_with [COMMA] (List.map serialize items) ++ js ")")
      with (ch "c" :: LPAREN :: join_with [COMMA] (List.map serialize items) ++ [RPAREN]).
    cbn [paren_scan]. change (N.eqb (ch "c") LPAREN) with false.
    change (N.eqb (ch "c") RPAREN) with false. change (N.eqb LPAREN LPAREN) with true.
    cbn iota. rewrite paren_scan_app.
    assert (Hscan : forall deepest',
              S depth <= deepest' ->
              paren_scan (S depth) deepest' (join_with [COMMA] (List.map serialize items))
              = Some (S depth,
                      Nat.max deepest'
                        (S depth + fold_right Nat.max 0 (List.map nesting_depth items)))).
    { assert (Hall : forallb lists_nonempty items = true)
        by (destruct items; [discriminate Hne|exact Hne]).
      assert (Hitems : items <> []) by (destruct items; [discriminate Hne|discriminate]).
      cbn [atoms_paren_free] in Hfree. clear Hne.
      induction IH as [|p items Hp _ IHitems]; intros deepest' Hle'.
      - now elim Hitems.
      - cbn [forallb] in Hall, Hfree.
        apply andb_prop in Hall as [Hp1 Hrest1]. apply andb_prop in Hfree as [Hp2 Hrest2].
        destruct items as [|p' items].
        + cbn [List.map join_with fold_right]. rewrite (Hp Hp1 Hp2) by exact Hle'.
          f_equal. f_equal. lia.
        + change (join_with [COMMA] (List.map serialize (p :: p' :: items)))
            with (serialize p ++ COMMA :: join_with [COMMA] (List.map serialize (p' :: items))).
          rewrite paren_scan_app, (Hp Hp1 Hp2) by exact Hle'.
          cbn [paren_scan]. change (N.eqb COMMA LPAREN) with false.
          change (N.eqb COMMA RPAREN) with false. cbn iota.
          rewrite (IHitems Hrest2 Hrest1) by (discriminate || lia).
          change (List.map nesting_depth (p :: p' :: items))
            with (nesting_depth p :: List.map nesting_depth (p' :: items)).
          cbn [fold_right]. f_equal. f_equal. lia. }
    rewrite Hscan by lia. cbn [paren_scan]. change (N.eqb RPAREN LPAREN) with false.
    change (N.eqb RPAREN RPAREN) with true. cbn iota. f_equal. f_equal. lia.
  - cbn [serialize nesting_depth]. cbn [atoms_paren_free] in Hfree.
    rewrite paren_scan_paren_free.
    + f_equal. f_equal. lia.
    + unfold paren_free in *. rewrite forallb_app, forallb_app, Hfree. reflexivity.
  - cbn. f_equal. f_equal. lia.
  - cbn [serialize nesting_depth]. cbn [atoms_paren_free] in Hfree.
    rewrite (paren_scan_paren_free text depth deepest Hfree). f_equal. f_equal. lia.
Qed.

(** C6. For a parameter value whose arrays are non-empty at every level, the
    source computes the structurally recursive serialization: every array
    becomes one [c(...)] around its serialized elements, in order, joined by
    commas.  When, besides, no string holds a parenthesis, the parentheses of
    the output are balanced and nested exactly as deep as the arrays of the
    input. *)
Theorem nested_lists_serialized_recursively (p : ParameterValue) :
  lists_nonempty p = true ->
  convertParamsArray p = serialize p ++ [COMMA]
  /\ (forall items,
        p = PArray items ->
        serialize p = js "c(" ++ join_with [COMMA] (List.map serialize items) ++ js ")")
  /\ (atoms_paren_free p = true ->
      balanced (serialize p) = true
      /\ paren_depth (serialize p) = nesting_depth p).
Proof.
  intros Hne. split; [now apply convertParamsArray_serialize|].
  split; [now intros items ->|].
  intros Hfree. unfold balanced, paren_depth.
  rewrite (paren_scan_serialize p Hne Hfree 0 0 (le_n 0)). split; reflexivity.
Qed.

Lemma nested_lists_serialized_recursively_witness :
  let p := PArray [PArray [PScalar (js "1"); PScalar (js "2")];
                   PArray [PArray [PString (js "x")]; PUndefined]] in
  convertParamsArray p = js "c(c(1,2),c(c('x'),NA))," /\ paren_depth (serialize p) = 3.
Proof.
  intros p.
  destruct (nested_lists_serialized_recursively p eq_refl) as [Hsame [_ Hdepth]].
  split; [exact Hsame|]. now destruct (Hdepth eq_refl).
Defined.

Lemma closes_paren_free (s : jsstring) : paren_free s = true -> closes s.
Proof.
  intros H depth deepest Hle. exists deepest.
  split; [lia|now apply paren_scan_paren_free].
Qed.

Lemma closes_app (a b : jsstring) : closes a -> closes b -> closes (a ++ b).
Proof.
  intros Ha Hb depth deepest Hle.
  destruct (Ha depth deepest Hle) as [d1 [Hd1 Hscan1]].
  destruct (Hb depth d1 ltac:(lia)) as [d2 [Hd2 Hscan2]].
  exists d2. split; [lia|]. now rewrite paren_scan_app, Hscan1.
Qed.

Lemma closes_wrap (s : jsstring) : closes s -> closes (LPAREN :: s ++ [RPAREN]).
Proof.
  intros Hs depth deepest Hle.
  destruct (Hs (S depth) (Nat.max deepest (S depth)) ltac:(lia)) as [d1 [Hd1 Hscan1]].
  exists d1. split; [lia|].
  cbn [paren_scan]. change (N.eqb LPAREN LPAREN) with true. cbn iota.
  rewrite paren_scan_app, Hscan1. reflexivity.
Qed.

Lemma closes_join (texts : list jsstring) :
  Forall closes texts -> closes (join_with [COMMA] texts).
Proof.
  induction 1 as [|text texts Htext Hrest IH].
  - now apply closes_paren_free.
  - destruct texts as [|text' texts]; [exact Htext|].
    change (join_with [COMMA] (text :: text' :: texts))
      with (text ++ [COMMA] ++ join_with [COMMA] (text' :: texts)).
    apply closes_app; [exact Htext|].
    apply closes_app; [now apply closes_paren_free|exact IH].
Qed.

Lemma closes_serialize (p : ParameterValue) :
  lists_nonempty p = true -> atoms_paren_free p = true -> closes (serialize p).
Proof.
  intros Hne Hfree depth deepest Hle. eexists.
  split; [|now apply paren_scan_serialize]. lia.
Qed.

Lemma balanced_of_closes (s : jsstring) : closes s -> balanced s = true.
Proof.
  intros Hs. unfold balanced.
  destruct (Hs 0 0 (le_n 0)) as [d [_ Hscan]]. now rewrite Hscan.
Qed.

Lemma serializedEntries_join (entries : list (jsstring * ParameterValue)) :
  entries <> [] ->
  forallb entry_wellformed entries = true ->
  serializedEntries entries = join_with [COMMA] (List.map serializeEntry entries) ++ [COMMA].
Proof.
  intros Hne Hall. induction entries as [|kv entries IH]; [now elim Hne|].
  change (kv :: entries) with ([kv] ++ entries).
  rewrite serializedEntries_app.
  cbn [forallb] in Hall. apply andb_prop in Hall as [Hkv Hrest].
  assert (Hone : serializedEntries [kv] = serializeEntry kv ++ [COMMA]).
  { unfold entry_wellformed in Hkv.
    apply andb_prop in Hkv as [Hkv _]. apply andb_prop in Hkv as [_ Hlists].
    destruct kv as [key v]. unfold serializedEntries, serializeEntry.
    cbn [fold_left fst snd] in *.
    destruct v as [items|s| |text]; cbn [namedEntry].
    - rewrite (convertParamsArray_serialize (PArray items) Hlists). now string_normalize.
    - now string_normalize.
    - now string_normalize.
    - now string_normalize. }
  rewrite Hone. destruct entries as [|kv' entries].
  - cbn. now rewrite app_nil_r.
  - rewrite IH by (discriminate || exact Hrest).
    change (join_with [COMMA] (List.map serializeEntry ([kv] ++ kv' :: entries)))
      with (serializeEntry kv ++ [COMMA]
            ++ join_with [COMMA] (List.map serializeEntry (kv' :: entries))).
    now rewrite <- !app_assoc.
Qed.

(** Where the invariant of the call expression holds: for a positional list
    and for a named map that are non-empty, with arrays non-empty at every
    level and no parenthesis in the names and strings, the text is the method
    name, one pair of parentheses, and in between every parameter serialized
    once, in order, with separators only between them. *)
Lemma methodSyntax_wellformed (methodName : jsstring) :
  paren_free methodName = true ->
  (forall items,
     lists_nonempty (PArray items) = true ->
     atoms_paren_free (PArray items) = true ->
     methodSyntax methodName (Positional items)
     = methodName ++ js "(c(" ++ join_with [COMMA] (List.map serialize items) ++ js "))"
     /\ balanced (methodSyntax methodName (Positional items)) = true)
  /\ (forall entries,
        entries <> [] ->
        forallb entry_wellformed entries = true ->
        methodSyntax methodName (Named entries)
        = methodName ++ js "(" ++ join_with [COMMA] (List.map serializeEntry entries) ++ js ")"
        /\ balanced (methodSyntax methodName (Named entries)) = true).
Proof.
  intros Hname. split.
  - intros items Hne Hfree.
    assert (Htext : methodSyntax methodName (Positional items)
                    = methodName ++ LPAREN :: serialize (PArray items) ++ [RPAREN]).
    { unfold methodSyntax. rewrite (convertParamsArray_serialize (PArray items) Hne).
      replace ((methodName ++ js "(") ++ serialize (PArray items) ++ [COMMA])
        with ((methodName ++ js "(" ++ serialize (PArray items)) ++ [COMMA])
        by now string_normalize.
      rewrite slice_append_one. now string_normalize. }
    split.
    + rewrite Htext. cbn [serialize]. now string_normalize.
    + rewrite Htext. apply balanced_of_closes.
      apply closes_app; [now apply closes_paren_free|].
      apply closes_wrap. now apply closes_serialize.
  - intros entries Hne Hall.
    assert (Htext : methodSyntax methodName (Named entries)
                    = methodName
                      ++ LPAREN :: join_with [COMMA] (List.map serializeEntry entries)
                      ++ [RPAREN]).
    { unfold methodSyntax. rewrite fold_namedEntry_append.
      rewrite (serializedEntries_join entries Hne Hall).
      replace ((methodName ++ js "(")
               ++ join_with [COMMA] (List.map serializeEntry entries) ++ [COMMA])
        with ((methodName ++ js "(" ++ join_with [COMMA] (List.map serializeEntry entries))
              ++ [COMMA])
        by now string_normalize.
      rewrite slice_append_one. now string_normalize. }
    split.
    + rewrite Htext. now string_normalize.
    + rewrite Htext. apply balanced_of_closes.
      apply closes_app; [now apply closes_paren_free|].
      apply closes_wrap. apply closes_join.
      clear Hne Htext. induction entries as [|kv entries IH]; cbn [List.map].
      * constructor.
      * cbn [forallb] in Hall. apply andb_prop in Hall as [Hkv Hrest].
        constructor; [|now apply IH].
        unfold entry_wellformed in Hkv.
        apply andb_prop in Hkv as [Hkv Hatoms]. apply andb_prop in Hkv as [Hkey Hlists].
        unfold serializeEntry. apply closes_app; [now apply closes_paren_free|].
        apply closes_app; [now apply closes_paren_free|now apply closes_serialize].
Qed.

(** C1 at the empty inputs. An empty array and an empty object pass the
    validation of the call operations; the unconditional [slice(0, -1)] then
    removes an opening parenthesis instead of a separator, and the expression
    handed to the engine closes more parentheses than it opens. *)
Theorem empty_parameters_unbalanced :
  convertParamsArray (PArray []) = js "c),"
  /\ methodSyntax (js "f") (Positional []) = js "f(c))"
  /\ balanced (methodSyntax (js "f") (Positional [])) = false
  /\ methodSyntax (js "f") (Named []) = js "f)"
  /\ balanced (methodSyntax (js "f") (Named [])) = false
  /\ (forall h loc,
        callStandardMethod h (Some (js "f")) (Some (Positional [])) loc
        = executeRCommand h (js "print(f(c)))") loc)
  /\ (forall h loc,
        callMethod h (Some (js "job.R")) (Some (js "f")) (Some (Named [])) loc
        = executeRCommand h (js "source('job.R'); print(f))") loc).
Proof.
  repeat split; reflexivity.
Qed.

(** ** Output parser *)

Lemma jseq_eq (a b : jsstring) : jseq a b = true <-> a = b.
Proof.
  revert b. induction a as [|x a IH]; intros [|y b]; cbn; split; intros H;
    try reflexivity; try discriminate H.
  - apply andb_prop in H as [Hxy Hab]. apply N.eqb_eq in Hxy. apply IH in Hab.
    now subst.
  - injection H as -> ->. rewrite N.eqb_refl. now apply IH.
Qed.

Lemma convertToken_tokenValue (piece : jsstring) : convertToken piece = tokenValue piece.
Proof.
  unfold convertToken, tokenValue.
  destruct (list_eq_dec N.eq_dec piece (js "NA")) as [->|Hna]; [reflexivity|].
  destruct (jseq piece (js "NA")) eqn:E1; [apply jseq_eq in E1; now elim Hna|].
  destruct (list_eq_dec N.eq_dec piece (js "NaN")) as [->|Hnan]; [reflexivity|].
  destruct (jseq piece (js "NaN")) eqn:E2; [apply jseq_eq in E2; now elim Hnan|].
  reflexivity.
Qed.

Section SplitOnNormalizedText.

(** A separator string [first :: others] made of white space, and the class
    [is_sep] of its code units, as in [/[\r\n]+/] for ["\r\n"] and [/[\n]+/]
    for ["\n"]. *)
Variable first : N.
Variable others : jsstring.
Variable is_sep : N -> bool.

Hypothesis first_is_sep : is_sep first = true.
Hypothesis others_are_sep : forallb is_sep others = true.
Hypothesis sep_is_space : forall c, is_sep c = true -> is_space c = true.

Lemma split_runs_absorbs (prefix rest : jsstring) :
  forallb is_sep prefix = true ->
  split_runs is_sep true [] (prefix ++ rest) = split_runs is_sep true [] rest.
Proof.
  induction prefix as [|c prefix IH]; cbn; intros H; [reflexivity|].
  apply andb_prop in H as [Hc Hprefix]. rewrite Hc. now apply IH.
Qed.

Lemma split_on_skips (separator prefix rest piece : jsstring) :
  split_on separator (List.length prefix) piece (prefix ++ rest)
  = split_on separator 0 piece rest.
Proof.
  induction prefix as [|c prefix IH]; cbn [List.length app]; [reflexivity|].
  cbn [split_on]. exact IH.
Qed.

Lemma starts_with_refl (prefix rest : jsstring) : starts_with prefix (prefix ++ rest) = true.
Proof.
  induction prefix as [|c prefix IH]; cbn; [reflexivity|].
  now rewrite N.eqb_refl, IH.
Qed.

Lemma not_space_not_first (c : N) : is_space c = false -> N.eqb first c = false.
Proof.
  intros Hc. destruct (N.eqb first c) eqn:E; [|reflexivity].
  apply N.eqb_eq in E. subst c. now rewrite (sep_is_space first first_is_sep) in Hc.
Qed.

Lemma not_space_not_sep (c : N) : is_space c = false -> is_sep c = false.
Proof.
  intros Hc. destruct (is_sep c) eqn:E; [|reflexivity].
  now rewrite (sep_is_space c E) in Hc.
Qed.

(** On a text whose white-space runs were replaced by the separator,
    splitting at the runs of separator code units and splitting at the
    occurrences of the separator give the same pieces. *)
Lemma split_runs_split_on (s : jsstring) :
  forall (collapsing splitting : bool) (piece : jsstring),
    (splitting = true -> collapsing = true /\ piece = []) ->
    split_runs is_sep splitting piece (collapse_space (first :: others) collapsing s)
    = split_on (first :: others) 0 piece (collapse_space (first :: others) collapsing s).
Proof.
  induction s as [|c s IH]; intros collapsing splitting piece Hinv; [reflexivity|].
  cbn [collapse_space]. destruct (is_space c) eqn:Hc.
  - destruct collapsing.
    + cbn [app]. apply IH. exact Hinv.
    + destruct splitting; [now destruct Hinv|].
      cbn [app split_runs]. rewrite first_is_sep.
      cbn [split_on].
      pose proof (starts_with_refl (first :: others)
                    (collapse_space (first :: others) true s)) as Hstart.
      cbn [app] in Hstart. rewrite Hstart. f_equal.
      rewrite (split_runs_absorbs others _ others_are_sep).
      cbn [List.length Nat.pred]. rewrite split_on_skips.
      apply IH. auto.
  - cbn [split_runs split_on]. rewrite (not_space_not_sep c Hc).
    cbn [starts_with]. rewrite (not_space_not_first c Hc).
    cbn [andb]. apply IH. intros H. discriminate H.
Qed.

End SplitOnNormalizedText.

(** The scenarios of the specification, on a Linux host. *)
Example filterMultiline_hello :
  filterMultiline (linux_host [] (fun _ => exits_ok [] []))
    (js "[1] " ++ [DQUOTE] ++ js "hello" ++ [DQUOTE; LF])
  = [VJson (JString (js "hello"))].
Proof. reflexivity. Qed.

Example filterMultiline_NA :
  filterMultiline (linux_host [] (fun _ => exits_ok [] [])) (js "[1] NA" ++ [LF])
  = [VUndefined].
Proof. reflexivity. Qed.

Example filterMultiline_object :
  filterMultiline (linux_host [] (fun _ => exits_ok [] []))
    (js "{" ++ [DQUOTE] ++ js "a" ++ [DQUOTE] ++ js ":1}" ++ [LF])
  = [VJson (JObject [(js "a", JNumber false 1 0)])].
Proof. reflexivity. Qed.

Example filterMultiline_vector :
  filterMultiline (linux_host [] (fun _ => exits_ok [] []))
    (js "[1] 1.5 NaN" ++ [LF] ++ js "[3] NA  " ++ [DQUOTE] ++ js "x" ++ [DQUOTE; LF])
  = [VString (js "1.5"); VNaN; VUndefined; VString (js "x")].
Proof. reflexivity. Qed.

(** C4. Whatever the raw text and the platform, [filterMultiline] returns what
    the specification describes: when the normalized text decodes as one JSON
    value, the one-element array holding it (so ["5"] gives the number 5);
    otherwise the pieces of the normalized text between line separators, where
    [NA] becomes [undefined], [NaN] becomes the not-a-number value, and any
    other piece is kept as a string without its double quotes. *)
Theorem filterMultiline_as_specified (h : Host) (rawText : jsstring) :
  filterMultiline h rawText = parse_as_specified h rawText
  /\ (forall v, JSON_parse (normalize h rawText) = Some v ->
                filterMultiline h rawText = [VJson v])
  /\ (JSON_parse (normalize h rawText) = None ->
      filterMultiline h rawText
      = List.map tokenValue (split_on (line_separator h) 0 [] (normalize h rawText)))
  /\ filterMultiline h (js "5") = [VJson (JNumber false 5 0)]
  /\ tokenValue (js "NA") = VUndefined
  /\ tokenValue (js "NaN") = VNaN
  /\ (forall piece, piece <> js "NA" -> piece <> js "NaN" ->
                    tokenValue piece
                    = VString (filter (fun c => negb (N.eqb c DQUOTE)) piece)).
Proof.
  assert (Hmain : forall raw, filterMultiline h raw = parse_as_specified h raw).
  { intros raw. unfold filterMultiline, parse_as_specified, line_separator.
    cbn zeta. destruct (JSON_parse (normalize h raw)); [reflexivity|].
    rewrite (map_ext _ _ convertToken_tokenValue). f_equal.
    unfold normalize. cbn zeta. destruct (jseq (getCurrentOs h) (js "win")).
    - apply (split_runs_split_on CR [LF] (fun c => N.eqb c CR || N.eqb c LF));
        try reflexivity.
      + intros c Hc. apply orb_prop in Hc as [Hc|Hc]; apply N.eqb_eq in Hc; now subst c.
      + intros H. discriminate H.
    - apply (split_runs_split_on LF [] (fun c => N.eqb c LF)); try reflexivity.
      + intros c Hc. apply N.eqb_eq in Hc. now subst c.
      + intros H. discriminate H. }
  split; [apply Hmain|].
  split; [intros v Hv; rewrite Hmain; unfold parse_as_specified; cbn zeta; now rewrite Hv|].
  split; [intros Hnone; rewrite Hmain; unfold parse_as_specified; cbn zeta; now rewrite Hnone|].
  split.
  { unfold filterMultiline, normalize. cbn zeta.
    destruct (jseq (getCurrentOs h) (js "win")); reflexivity. }
  split; [reflexivity|]. split; [reflexivity|].
  intros piece Hna Hnan. unfold tokenValue.
  destruct (list_eq_dec N.eq_dec piece (js "NA")); [contradiction|].
  destruct (list_eq_dec N.eq_dec piece (js "NaN")); [contradiction|]. reflexivity.
Qed.

(** * Further properties *)

(** ** Engine locator *)

Lemma checkInstallationDir_returns (installationDir path : option jsstring) (p : jsstring) :
  checkInstallationDir installationDir path = Return p ->
  installationDir = Some p /\ p <> [].
Proof.
  destruct installationDir as [[|c dir]|]; cbn; intros H; try discriminate H.
  injection H as <-. split; [reflexivity|discriminate].
Qed.

Lemma checkInstallationDir_throws (installationDir path : option jsstring) (e : Thrown) :
  checkInstallationDir installationDir path = Throw e -> e = REngineNotFoundError path.
Proof.
  destruct installationDir as [[|c dir]|]; cbn; intros H; try discriminate H;
    now injection H as <-.
Qed.

(** What the locator throws is the engine-not-found error or, on Windows, what
    reading the directory threw. *)
Lemma getRscriptPath_throws (h : Host) (path : option jsstring) (e : Thrown) :
  getRscriptPath h path = Throw e ->
  (exists tried, e = REngineNotFoundError tried) \/ (exists dir, e = HostError dir).
Proof.
  destruct (getCurrentOs_cases h) as [E|E].
  - rewrite (getRscriptPath_win h path E). unfold windowsCase.
    destruct (fs_existsSync h _).
    + destruct (fs_readdirSync h _) as [[|d ds]|]; intros H.
      * left. eexists. apply (checkInstallationDir_throws _ _ _ H).
      * left. eexists. apply (checkInstallationDir_throws _ _ _ H).
      * right. injection H as <-. eexists. reflexivity.
    + intros H. left. eexists. apply (checkInstallationDir_throws _ _ _ H).
  - rewrite (getRscriptPath_unix h path E). unfold unixCase.
    destruct (negb (truthy path)).
    + destruct (truthy _); intros H; left; eexists;
        apply (checkInstallationDir_throws _ _ _ H).
    + destruct (fs_existsSync h _); intros H; left; eexists;
        apply (checkInstallationDir_throws _ _ _ H).
Qed.

(** X1. The locator never returns an empty path: whatever the platform, the
    override, the file system and the answer of [which], a returned path has
    at least one code unit. *)
Theorem getRscriptPath_returns_nonempty (h : Host) (path : option jsstring) (p : jsstring) :
  getRscriptPath h path = Return p -> p <> [].
Proof.
  destruct (getCurrentOs_cases h) as [E|E].
  - rewrite (getRscriptPath_win h path E). unfold windowsCase.
    destruct (fs_existsSync h _).
    + destruct (fs_readdirSync h _) as [[|d ds]|]; intros H;
        first [discriminate H | apply (checkInstallationDir_returns _ _ _ H)].
    + intros H. apply (checkInstallationDir_returns _ _ _ H).
  - rewrite (getRscriptPath_unix h path E). unfold unixCase.
    destruct (negb (truthy path)).
    + destruct (truthy _); intros H; apply (checkInstallationDir_returns _ _ _ H).
    + destruct (fs_existsSync h _); intros H; apply (checkInstallationDir_returns _ _ _ H).
Qed.

Lemma getRscriptPath_returns_nonempty_witness :
  js "/usr/bin/Rscript" <> [].
Proof.
  apply (getRscriptPath_returns_nonempty
           (linux_host [] (fun _ => exits_ok (js "/usr/bin/Rscript" ++ [LF]) [])) None).
  reflexivity.
Defined.

(** X2. An empty string given as override directory counts as no override: the
    locator and the six operations behave as when the argument is left out. *)
Theorem empty_override_is_no_override (h : Host) :
  getRscriptPath h (Some []) = getRscriptPath h None
  /\ (forall command,
        executeRCommand h command (Some []) = executeRCommand h command None
        /\ executeRCommandAsync h command (Some []) = executeRCommandAsync h command None)
  /\ (forall fileLocation,
        executeRScript h fileLocation (Some []) = executeRScript h fileLocation None)
  /\ (forall fileLocation methodName params,
        callMethod h fileLocation methodName params (Some [])
        = callMethod h fileLocation methodName params None
        /\ callMethodAsync h fileLocation methodName params (Some [])
           = callMethodAsync h fileLocation methodName params None)
  /\ (forall methodName params,
        callStandardMethod h methodName params (Some [])
        = callStandardMethod h methodName params None).
Proof.
  assert (Hloc : getRscriptPath h (Some []) = getRscriptPath h None) by reflexivity.
  assert (Hsync : forall command,
            executeRCommand h command (Some []) = executeRCommand h command None).
  { intros. unfold executeRCommand. now rewrite Hloc. }
  assert (Hasync : forall command,
            executeRCommandAsync h command (Some []) = executeRCommandAsync h command None).
  { intros. unfold executeRCommandAsync. now rewrite Hloc. }
  split; [exact Hloc|]. split; [intros; split; auto|].
  split; [intros; unfold executeRScript; now rewrite Hloc|].
  split.
  - intros fileLocation methodName params. unfold callMethod, callMethodAsync.
    destruct params; [|split; reflexivity].
    destruct (negb (truthy methodName) || negb (truthy fileLocation)); split; auto.
  - intros methodName params. unfold callStandardMethod.
    destruct params; [|reflexivity]. destruct (negb (truthy methodName)); auto.
Qed.

Lemma remove_first_LF_empty (s : jsstring) :
  remove_first_LF s = [] <-> s = [] \/ s = [LF].
Proof.
  split.
  - destruct s as [|c s]; [now left|]. cbn. destruct (N.eqb c LF) eqn:E.
    + intros ->. apply N.eqb_eq in E. subst c. now right.
    + intros H. discriminate H.
  - intros [->| ->]; reflexivity.
Qed.

(** X3. On a Unix-like classification and without override, the locator
    returns exactly when [which Rscript] exits with status zero and prints
    something other than a lone line feed; it then returns what was printed
    without its first line feed.  Otherwise it throws the engine-not-found
    error, which carries what [which] printed, or [undefined] when [which]
    failed. *)
Theorem locate_by_which (h : Host) :
  getCurrentOs h = js "lin" \/ getCurrentOs h = js "mac" ->
  let proc := child_process h (js "which Rscript") in
  getRscriptPath h None
  = match proc_error proc with
    | Some _ => Throw (REngineNotFoundError None)
    | None =>
        match remove_first_LF (proc_stdout proc) with
        | [] => Throw (REngineNotFoundError (Some (proc_stdout proc)))
        | c :: p => Return (c :: p)
        end
    end
  /\ ((exists p, getRscriptPath h None = Return p)
      <-> proc_error proc = None /\ proc_stdout proc <> [] /\ proc_stdout proc <> [LF]).
Proof.
  intros Hos proc.
  assert (Heq : getRscriptPath h None
                = match proc_error proc with
                  | Some _ => Throw (REngineNotFoundError None)
                  | None =>
                      match remove_first_LF (proc_stdout proc) with
                      | [] => Throw (REngineNotFoundError (Some (proc_stdout proc)))
                      | c :: p => Return (c :: p)
                      end
                  end).
  { rewrite (getRscriptPath_unix h None Hos). unfold unixCase, executeShellCommand.
    cbn [truthy negb]. fold proc. destruct (proc_error proc); [reflexivity|].
    cbn [stdout]. destruct (proc_stdout proc) as [|c out]; [reflexivity|].
    cbn [truthy option_map checkInstallationDir].
    destruct (remove_first_LF (c :: out)); reflexivity. }
  split; [exact Heq|]. rewrite Heq.
  destruct (proc_error proc) as [err|].
  - split; [intros [p H]; discriminate H|intros [H _]; discriminate H].
  - destruct (remove_first_LF (proc_stdout proc)) as [|c p] eqn:Hrem.
    + apply remove_first_LF_empty in Hrem. split.
      * intros [p H]. discriminate H.
      * intros [_ [H1 H2]]. destruct Hrem; contradiction.
    + split; [|intros _; eexists; reflexivity].
      intros _. split; [reflexivity|].
      split; intros H; rewrite H in Hrem; discriminate Hrem.
Qed.

Lemma locate_by_which_witness :
  exists p,
    getRscriptPath (linux_host [] (fun _ => exits_ok (js "/usr/bin/Rscript" ++ [LF]) [])) None
    = Return p.
Proof.
  apply (locate_by_which
           (linux_host [] (fun _ => exits_ok (js "/usr/bin/Rscript" ++ [LF]) []))
           (or_introl eq_refl)).
  split; [reflexivity|]. split; vm_compute; discriminate.
Defined.

(** X4. On the Windows classification the locator looks into the override
    directory or, without override, into the default one.  When the directory
    does not exist or is empty it throws the engine-not-found error carrying
    that directory.  When the directory has entries the composed path through
    the last entry is returned, without any look at whether that file
    exists. *)
Theorem locate_on_windows (h : Host) (path : option jsstring) :
  getCurrentOs h = js "win" ->
  let dir := if truthy path then template_text path else pt_join h [PROGRAM_FILES_R] in
  (fs_existsSync h dir = false ->
   getRscriptPath h path = Throw (REngineNotFoundError (Some dir)))
  /\ (fs_existsSync h dir = true -> fs_readdirSync h dir = Some [] ->
      getRscriptPath h path = Throw (REngineNotFoundError (Some dir)))
  /\ (forall entries lastVersion,
        fs_existsSync h dir = true ->
        fs_readdirSync h dir = Some (entries ++ [lastVersion]) ->
        pt_join h [dir; lastVersion; js "bin"; js "Rscript.exe"] <> [] ->
        getRscriptPath h path
        = Return (pt_join h [dir; lastVersion; js "bin"; js "Rscript.exe"])).
Proof.
  intros Hos dir. rewrite (getRscriptPath_win h path Hos). unfold windowsCase. fold dir.
  split; [intros ->; reflexivity|]. split; [intros -> ->; reflexivity|].
  intros entries lastVersion -> -> Hjoin.
  rewrite last_last.
  destruct (entries ++ [lastVersion]) eqn:E; [now destruct entries|].
  destruct (pt_join h [dir; lastVersion; js "bin"; js "Rscript.exe"]);
    [now elim Hjoin|reflexivity].
Qed.

Lemma locate_on_windows_witness :
  let root := js "C:" ++ [BACKSLASH] ++ js "R" in
  let h := windows_host
             (fun p => if jseq p root then Some [js "R-4.2.0"; js "R-4.3.1"] else None)
             (fun _ => exits_ok [] []) in
  getRscriptPath h (Some root)
  = Return (root ++ [BACKSLASH] ++ js "R-4.3.1" ++ [BACKSLASH] ++ js "bin"
            ++ [BACKSLASH] ++ js "Rscript.exe")
  /\ fs_existsSync h (root ++ [BACKSLASH] ++ js "R-4.3.1" ++ [BACKSLASH] ++ js "bin"
                      ++ [BACKSLASH] ++ js "Rscript.exe") = false.
Proof.
  intros root h. split; [|reflexivity].
  destruct (locate_on_windows h (Some root) eq_refl) as [_ [_ Hlast]].
  apply (Hlast [js "R-4.2.0"] (js "R-4.3.1") eq_refl eq_refl). vm_compute. discriminate.
Defined.

(** ** Invocation facade *)

Lemma outputOrThrow_throws (h : Host) (r : ShellResult) (e : Thrown) :
  outputOrThrow h r = Throw e -> e = RScriptError (stderr r).
Proof.
  unfold outputOrThrow. destruct (truthy (stdout r)); intros H; [discriminate H|].
  now injection H as <-.
Qed.

(** The expression runners throw no plain [Error]. *)
Lemma executeRCommand_no_plain_error (h : Host) (command : jsstring)
  (loc : option jsstring) (message : jsstring) :
  executeRCommand h command loc <> Throw (Error_ message)
  /\ executeRCommandAsync h command loc <> Throw (Error_ message).
Proof.
  unfold executeRCommand, executeRCommandAsync.
  destruct (getRscriptPath h loc) as [p|e] eqn:Hp; cbn [bind].
  - split; intros H; apply outputOrThrow_throws in H; discriminate H.
  - destruct (getRscriptPath_throws h loc e Hp) as [[tried ->]|[dir ->]];
      split; discriminate.
Qed.

(** X5. When the locator throws, every operation that reaches it throws the
    same value, unchanged: the two expression runners, the script runner (even
    when the script file is missing as well), and the call operations given
    a method name, a file and parameters. *)
Theorem locator_error_propagates (h : Host) (loc : option jsstring) (e : Thrown) :
  getRscriptPath h loc = Throw e ->
  (forall command,
     executeRCommand h command loc = Throw e
     /\ executeRCommandAsync h command loc = Throw e)
  /\ (forall fileLocation, executeRScript h fileLocation loc = Throw e)
  /\ (forall fileLocation methodName params,
        truthy (Some fileLocation) = true -> truthy (Some methodName) = true ->
        callMethod h (Some fileLocation) (Some methodName) (Some params) loc = Throw e
        /\ callMethodAsync h (Some fileLocation) (Some methodName) (Some params) loc
           = Throw e)
  /\ (forall methodName params,
        truthy (Some methodName) = true ->
        callStandardMethod h (Some methodName) (Some params) loc = Throw e).
Proof.
  intros He.
  assert (Hsync : forall command, executeRCommand h command loc = Throw e).
  { intros. unfold executeRCommand. now rewrite He. }
  assert (Hasync : forall command, executeRCommandAsync h command loc = Throw e).
  { intros. unfold executeRCommandAsync. now rewrite He. }
  split; [intros; split; auto|].
  split; [intros; unfold executeRScript; now rewrite He|].
  split.
  - intros fileLocation methodName params Hf Hm. unfold callMethod, callMethodAsync.
    rewrite Hf, Hm. cbn [negb orb]. split; auto.
  - intros methodName params Hm. unfold callStandardMethod. rewrite Hm. cbn [negb]. auto.
Qed.

Lemma locator_error_propagates_witness :
  let h := linux_host [] (fun c => exits_failed c [] []) in
  executeRScript h (js "missing.R") None = Throw (REngineNotFoundError None)
  /\ callStandardMethod h (Some (js "sum")) (Some (Positional [PScalar (js "1")])) None
     = Throw (REngineNotFoundError None).
Proof.
  intros h.
  destruct (locator_error_propagates h None (REngineNotFoundError None) eq_refl)
    as [_ [Hscript [_ Hstd]]].
  split; [apply Hscript|]. apply Hstd. reflexivity.
Defined.

(** X6. The call operations throw their validation error exactly when an
    argument is missing: the method name or (where there is one) the file
    location is undefined or empty, or the parameters are undefined or null.
    The host plays no part in that. *)
Theorem validation_error_iff_missing_argument (h : Host)
  (fileLocation methodName : option jsstring) (params : option Params)
  (loc : option jsstring) :
  (rejected (callMethod h fileLocation methodName params loc) INVALID_FILE_CALL
   <-> truthy methodName = false \/ truthy fileLocation = false \/ params = None)
  /\ (rejected (callMethodAsync h fileLocation methodName params loc) INVALID_FILE_CALL
      <-> truthy methodName = false \/ truthy fileLocation = false \/ params = None)
  /\ (rejected (callStandardMethod h methodName params loc) INVALID_STANDARD_CALL
      <-> truthy methodName = false \/ params = None).
Proof.
  unfold rejected, callMethod, callMethodAsync, callStandardMethod.
  destruct params as [params|].
  - destruct (truthy methodName), (truthy fileLocation); cbn [negb orb];
      repeat split; intros H;
      try reflexivity; try (now left); try (now right; left);
      try (exfalso;
           first [ apply (proj1 (executeRCommand_no_plain_error h _ loc _) H)
                 | apply (proj2 (executeRCommand_no_plain_error h _ loc _) H) ]);
      try (destruct H as [H|[H|H]]; discriminate H);
      try (destruct H as [H|H]; discriminate H).
  - repeat split; intros _; try reflexivity; try (now right; right); now right.
Qed.

(** X7. For a script file that does not exist the script runner never returns:
    it throws what the locator threw or, once the engine is located, the error
    that names the missing file. *)
Theorem executeRScript_missing_file (h : Host) (fileLocation : jsstring)
  (loc : option jsstring) :
  fs_existsSync h fileLocation = false ->
  executeRScript h fileLocation loc
  = match getRscriptPath h loc with
    | Return _ => Throw (Error_ (fileMissingMessage fileLocation))
    | Throw e => Throw e
    end
  /\ forall data, executeRScript h fileLocation loc <> Return data.
Proof.
  intros Hmissing. unfold executeRScript.
  destruct (getRscriptPath h loc) as [p|e]; cbn [bind].
  - rewrite Hmissing. cbn [negb]. split; [reflexivity|discriminate].
  - split; [reflexivity|discriminate].
Qed.

Lemma executeRScript_missing_file_witness :
  executeRScript (linux_host [js "/opt/R/Rscript"] (fun _ => exits_ok (js "[1] 1") []))
    (js "job.R") (Some (js "/opt/R"))
  = Throw (Error_ (fileMissingMessage (js "job.R"))).
Proof.
  apply (executeRScript_missing_file
           (linux_host [js "/opt/R/Rscript"] (fun _ => exits_ok (js "[1] 1") []))
           (js "job.R") (Some (js "/opt/R")) eq_refl).
Defined.

(** ** Output parser *)

Lemma split_runs_nonempty (is_sep : N -> bool) (s : jsstring) :
  forall in_run piece, split_runs is_sep in_run piece s <> [].
Proof.
  induction s as [|c s IH]; intros in_run piece; cbn; [discriminate|].
  destruct (is_sep c); [|apply IH].
  destruct in_run; [apply IH|discriminate].
Qed.

Lemma filterMultiline_nonempty (h : Host) (commandResult : jsstring) :
  filterMultiline h commandResult <> [].
Proof.
  unfold filterMultiline. cbn zeta.
  destruct (JSON_parse (normalize h commandResult)); [discriminate|].
  destruct (jseq (getCurrentOs h) (js "win")); intros H;
    apply map_eq_nil in H; now apply split_runs_nonempty in H.
Qed.

Lemma outputOrThrow_returns_nonempty (h : Host) (r : ShellResult) (data : list ParsedValue) :
  outputOrThrow h r = Return data -> data <> [].
Proof.
  unfold outputOrThrow. destruct (truthy (stdout r)); intros H; [|discriminate H].
  injection H as <-. apply filterMultiline_nonempty.
Qed.

Lemma executeRCommand_returns_nonempty (h : Host) (command : jsstring)
  (loc : option jsstring) (data : list ParsedValue) :
  (executeRCommand h command loc = Return data -> data <> [])
  /\ (executeRCommandAsync h command loc = Return data -> data <> []).
Proof.
  unfold executeRCommand, executeRCommandAsync.
  destruct (getRscriptPath h loc) as [p|e]; cbn [bind].
  - split; apply outputOrThrow_returns_nonempty.
  - split; intros H; discriminate H.
Qed.

(** X8. No operation ever returns an empty array: the parser always yields at
    least one element, so whatever an operation returns has a first
    element. *)
Theorem results_never_empty (h : Host) (loc : option jsstring) (data : list ParsedValue) :
  (forall commandResult, filterMultiline h commandResult <> [])
  /\ (forall command, executeRCommand h command loc = Return data -> data <> [])
  /\ (forall command, executeRCommandAsync h command loc = Return data -> data <> [])
  /\ (forall fileLocation, executeRScript h fileLocation loc = Return data -> data <> [])
  /\ (forall fileLocation methodName params,
        callMethod h fileLocation methodName params loc = Return data -> data <> [])
  /\ (forall fileLocation methodName params,
        callMethodAsync h fileLocation methodName params loc = Return data -> data <> [])
  /\ (forall methodName params,
        callStandardMethod h methodName params loc = Return data -> data <> []).
Proof.
  split; [apply filterMultiline_nonempty|].
  split; [intros command; apply executeRCommand_returns_nonempty|].
  split; [intros command; apply executeRCommand_returns_nonempty|].
  split.
  { intros fileLocation. unfold executeRScript.
    destruct (getRscriptPath h loc) as [p|e]; cbn [bind]; [|discriminate].
    destruct (negb (fs_existsSync h fileLocation)); [discriminate|].
    apply outputOrThrow_returns_nonempty. }
  split.
  { intros fileLocation methodName params. unfold callMethod.
    destruct params; [|discriminate].
    destruct (negb (truthy methodName) || negb (truthy fileLocation)); [discriminate|].
    apply executeRCommand_returns_nonempty. }
  split.
  { intros fileLocation methodName params. unfold callMethodAsync.
    destruct params; [|discriminate].
    destruct (negb (truthy methodName) || negb (truthy fileLocation)); [discriminate|].
    apply executeRCommand_returns_nonempty. }
  intros methodName params. unfold callStandardMethod.
  destruct params; [|discriminate].
  destruct (negb (truthy methodName)); [discriminate|].
  apply executeRCommand_returns_nonempty.
Qed.

Lemma results_never_empty_witness :
  [VJson (JNumber false 2 0)] <> [].
Proof.
  destruct (results_never_empty
              (linux_host [js "/opt/R/Rscript"] (fun _ => exits_ok (js "[1] 2") []))
              (Some (js "/opt/R")) [VJson (JNumber false 2 0)]) as [_ [Hsync _]].
  apply (Hsync (js "1+1")). reflexivity.
Defined.

Section PiecesOfNormalizedText.

Variable first : N.
Variable others : jsstring.
Variable is_sep : N -> bool.

Hypothesis first_is_sep : is_sep first = true.
Hypothesis others_are_sep : forallb is_sep others = true.
Hypothesis sep_is_space : forall c, is_sep c = true -> is_space c = true.

(** The pieces of a text whose white-space runs were replaced by the
    separator hold no white space. *)
Lemma split_runs_pieces_space_free (s : jsstring) :
  forall (collapsing splitting : bool) (piece : jsstring),
    space_free piece = true ->
    Forall (fun x => space_free x = true)
      (split_runs is_sep splitting piece (collapse_space (first :: others) collapsing s)).
Proof.
  induction s as [|c s IH]; intros collapsing splitting piece Hpiece.
  - constructor; [exact Hpiece|constructor].
  - cbn [collapse_space]. destruct (is_space c) eqn:Hc.
    + destruct collapsing; [now apply IH|].
      cbn [app split_runs]. rewrite first_is_sep.
      rewrite (split_runs_absorbs is_sep others _ others_are_sep).
      destruct splitting; [now apply IH|].
      constructor; [exact Hpiece|now apply IH].
    + cbn [split_runs]. rewrite (not_space_not_sep is_sep sep_is_space c Hc).
      apply IH. unfold space_free in *. rewrite forallb_app, Hpiece. cbn.
      now rewrite Hc.
Qed.

End PiecesOfNormalizedText.

Lemma filter_quote_free (piece : jsstring) :
  quote_free (filter (fun c => negb (N.eqb c DQUOTE)) piece) = true.
Proof.
  unfold quote_free. induction piece as [|c piece IH]; [reflexivity|].
  cbn [filter]. destruct (negb (N.eqb c DQUOTE)) eqn:E; [|exact IH].
  cbn [forallb]. now rewrite E, IH.
Qed.

Lemma filter_space_free (keep : N -> bool) (piece : jsstring) :
  space_free piece = true -> space_free (filter keep piece) = true.
Proof.
  unfold space_free. induction piece as [|c piece IH]; [reflexivity|].
  cbn [forallb filter]. intros H. apply andb_prop in H as [Hc Hrest].
  destruct (keep c); [cbn [forallb]; now rewrite Hc, IH|now apply IH].
Qed.

(** X9. When the normalized text does not decode as one JSON value, every
    element of the result is [undefined], the not-a-number value, or a string
    that holds no white space and no double quote, whatever the raw text and
    the platform.  (A string decoded by [JSON.parse] is another matter: it may
    hold both.) *)
Theorem split_result_elements_clean (h : Host) (commandResult : jsstring) :
  JSON_parse (normalize h commandResult) = None ->
  Forall clean_element (filterMultiline h commandResult).
Proof.
  intros Hnone. unfold filterMultiline. cbn zeta. rewrite Hnone.
  apply Forall_forall. intros x Hin.
  apply in_map_iff in Hin as [piece [Hvalue Hpiece]].
  assert (Hclean : space_free piece = true).
  { unfold normalize in Hpiece. cbn zeta in Hpiece.
    destruct (jseq (getCurrentOs h) (js "win")).
    - refine (proj1 (Forall_forall _ _)
                (split_runs_pieces_space_free CR [LF] (fun c => N.eqb c CR || N.eqb c LF)
                   eq_refl eq_refl _ _ false false [] eq_refl) piece Hpiece).
      intros c Hc. apply orb_prop in Hc as [Hc|Hc]; apply N.eqb_eq in Hc; now subst c.
    - refine (proj1 (Forall_forall _ _)
                (split_runs_pieces_space_free LF [] (fun c => N.eqb c LF)
                   eq_refl eq_refl _ _ false false [] eq_refl) piece Hpiece).
      intros c Hc. apply N.eqb_eq in Hc. now subst c. }
  unfold convertToken in Hvalue. unfold clean_element.
  destruct (jseq piece (js "NA")); [now subst x|].
  destruct (jseq piece (js "NaN")); [now subst x|].
  subst x. split; [now apply filter_space_free|apply filter_quote_free].
Qed.

Lemma split_result_elements_clean_witness :
  Forall clean_element [VString (js "1.5"); VUndefined; VString (js "x")].
Proof.
  apply (split_result_elements_clean (linux_host [] (fun _ => exits_ok [] []))
           (js "[1] 1.5 NA " ++ [DQUOTE] ++ js "x" ++ [DQUOTE; LF])).
  reflexivity.
Defined.

Lemma space_is_not_bracket (c : N) : is_space c = true -> N.eqb c (ch "[") = false.
Proof.
  intros Hc. destruct (N.eqb c (ch "[")) eqn:E; [|reflexivity].
  apply N.eqb_eq in E. subst c. discriminate Hc.
Qed.

Lemma strip_index_prefixes_spaces (s : jsstring) :
  forallb is_space s = true -> strip_index_prefixes 0 s = s.
Proof.
  induction s as [|c s IH]; [reflexivity|]. cbn [forallb]. intros H.
  apply andb_prop in H as [Hc Hs].
  cbn [strip_index_prefixes match_index_prefix].
  rewrite (space_is_not_bracket c Hc). now rewrite IH.
Qed.

(** X10. A raw text made only of white space (a lone line feed, say) parses
    to the array holding one empty string, on every platform. *)
Theorem filterMultiline_blank (h : Host) (commandResult : jsstring) :
  forallb is_space commandResult = true ->
  filterMultiline h commandResult = [VString []].
Proof.
  intros Hblank.
  assert (Hnorm : normalize h commandResult = []).
  { unfold normalize. cbn zeta. rewrite (strip_index_prefixes_spaces _ Hblank).
    assert (Hstrip : strip_trailing_space commandResult = []).
    { destruct commandResult as [|c s]; [reflexivity|].
      cbn [strip_trailing_space]. now rewrite Hblank. }
    rewrite Hstrip. now destruct (jseq (getCurrentOs h) (js "win")). }
  unfold filterMultiline. cbn zeta. rewrite Hnorm.
  destruct (jseq (getCurrentOs h) (js "win")); reflexivity.
Qed.

Lemma filterMultiline_blank_witness :
  filterMultiline (linux_host [] (fun _ => exits_ok [] [])) [LF] = [VString []].
Proof.
  apply (filterMultiline_blank (linux_host [] (fun _ => exits_ok [] [])) [LF]).
  reflexivity.
Defined.

Lemma span_digits_rest_blank_free (s : jsstring) :
  blank_free s = true -> blank_free (snd (span_digits s)) = true.
Proof.
  unfold blank_free. induction s as [|c s IH]; [reflexivity|].
  intros H. cbn [span_digits]. destruct (is_digit c); [|exact H].
  cbn [forallb] in H. apply andb_prop in H as [_ Hs].
  destruct (span_digits s) as [d r]. cbn [snd] in *. now apply IH.
Qed.

(** Without a space character there is no index prefix to remove. *)
Lemma strip_index_prefixes_blank_free (s : jsstring) :
  blank_free s = true -> strip_index_prefixes 0 s = s.
Proof.
  induction s as [|c s IH]; [reflexivity|]. intros H.
  assert (Hs : blank_free s = true).
  { unfold blank_free in *. cbn [forallb] in H. now apply andb_prop in H as [_ Hs]. }
  assert (Hnone : match_index_prefix (c :: s) = None).
  { cbn [match_index_prefix]. destruct (N.eqb c (ch "[")); [|reflexivity].
    pose proof (span_digits_rest_blank_free s Hs) as Hrest.
    destruct (span_digits s) as [[|d ds] [|c1 [|c2 rest]]]; try reflexivity.
    unfold blank_free in Hrest. cbn [snd forallb] in Hrest.
    apply andb_prop in Hrest as [_ Hrest]. apply andb_prop in Hrest as [Hc2 _].
    apply negb_true_iff in Hc2. rewrite Hc2. now rewrite andb_false_r. }
  cbn [strip_index_prefixes]. rewrite Hnone. now rewrite (IH Hs).
Qed.

Lemma strip_trailing_space_keeps_nonspace (s : jsstring) :
  forallb is_space s = false -> forallb is_space (strip_trailing_space s) = false.
Proof.
  induction s as [|c s IH]; intros H; [discriminate H|].
  cbn [strip_trailing_space]. rewrite H. cbn [forallb] in *.
  destruct (is_space c); [|reflexivity]. cbn [andb] in *. now apply IH.
Qed.

Lemma strip_trailing_space_idempotent (s : jsstring) :
  strip_trailing_space (strip_trailing_space s) = strip_trailing_space s.
Proof.
  induction s as [|c s IH]; [reflexivity|].
  cbn [strip_trailing_space]. destruct (forallb is_space (c :: s)) eqn:Hall; [reflexivity|].
  cbn [strip_trailing_space].
  assert (Hkept : forallb is_space (c :: strip_trailing_space s) = false).
  { cbn [forallb] in *. destruct (is_space c); [|reflexivity]. cbn [andb] in *.
    now apply strip_trailing_space_keeps_nonspace. }
  now rewrite Hkept, IH.
Qed.

Section NormalizedTextIsStable.

Variable first : N.
Variable others : jsstring.

Hypothesis first_is_space : is_space first = true.
Hypothesis others_are_space : forallb is_space others = true.
Hypothesis separator_blank_free : blank_free (first :: others) = true.

Lemma collapse_space_blank_free (s : jsstring) (collapsing : bool) :
  blank_free (collapse_space (first :: others) collapsing s) = true.
Proof.
  revert collapsing. unfold blank_free in *.
  induction s as [|c s IH]; intros collapsing; [reflexivity|].
  cbn [collapse_space]. destruct (is_space c) eqn:Hc.
  - rewrite forallb_app, IH, andb_true_r.
    destruct collapsing; [reflexivity|exact separator_blank_free].
  - cbn [forallb]. rewrite IH, andb_true_r.
    destruct (N.eqb c SPACE) eqn:E; [|reflexivity].
    apply N.eqb_eq in E. subst c. discriminate Hc.
Qed.

Lemma collapse_space_keeps_nonspace (s : jsstring) (collapsing : bool) :
  forallb is_space s = false ->
  forallb is_space (collapse_space (first :: others) collapsing s) = false.
Proof.
  revert collapsing. induction s as [|c s IH]; intros collapsing H; [discriminate H|].
  cbn [collapse_space]. cbn [forallb] in H. destruct (is_space c) eqn:Hc.
  - cbn [andb] in H. rewrite forallb_app, (IH true H). apply andb_false_r.
  - cbn [forallb]. now rewrite Hc.
Qed.

Lemma strip_trailing_space_after (prefix s : jsstring) :
  forallb is_space s = false ->
  strip_trailing_space s = s ->
  strip_trailing_space (prefix ++ s) = prefix ++ s.
Proof.
  intros Hs Hstable. induction prefix as [|c prefix IH]; [exact Hstable|].
  cbn [app strip_trailing_space].
  assert (Hall : forallb is_space (c :: prefix ++ s) = false).
  { cbn [forallb]. rewrite forallb_app, Hs, andb_false_r. apply andb_false_r. }
  now rewrite Hall, IH.
Qed.

Lemma strip_trailing_space_collapse (s : jsstring) :
  strip_trailing_space s = s ->
  forall collapsing,
    strip_trailing_space (collapse_space (first :: others) collapsing s)
    = collapse_space (first :: others) collapsing s.
Proof.
  induction s as [|c s IH]; intros Hstable collapsing; [reflexivity|].
  cbn [strip_trailing_space] in Hstable.
  destruct (forallb is_space (c :: s)) eqn:Hall; [discriminate Hstable|].
  injection Hstable as Hstable.
  cbn [collapse_space]. destruct (is_space c) eqn:Hc.
  - cbn [forallb] in Hall. rewrite Hc in Hall. cbn [andb] in Hall.
    apply strip_trailing_space_after.
    + now apply collapse_space_keeps_nonspace.
    + now apply IH.
  - cbn [strip_trailing_space forallb]. rewrite Hc. cbn [andb].
    now rewrite (IH Hstable).
Qed.

Lemma collapse_space_absorbs (prefix rest : jsstring) :
  forallb is_space prefix = true ->
  collapse_space (first :: others) true (prefix ++ rest)
  = collapse_space (first :: others) true rest.
Proof.
  induction prefix as [|c prefix IH]; [reflexivity|].
  cbn [forallb app collapse_space]. intros H. apply andb_prop in H as [Hc Hprefix].
  rewrite Hc. cbn [app]. now apply IH.
Qed.

Lemma collapse_space_idempotent (s : jsstring) :
  forall collapsing again,
    (again = true -> collapsing = true) ->
    collapse_space (first :: others) again (collapse_space (first :: others) collapsing s)
    = collapse_space (first :: others) collapsing s.
Proof.
  induction s as [|c s IH]; intros collapsing again Hinv; [reflexivity|].
  cbn [collapse_space]. destruct (is_space c) eqn:Hc.
  - destruct collapsing.
    + cbn [app]. now apply IH.
    + destruct again; [discriminate (Hinv eq_refl)|].
      cbn [app collapse_space]. rewrite first_is_space. cbn [app]. f_equal.
      rewrite (collapse_space_absorbs others _ others_are_space).
      f_equal. now apply IH.
  - cbn [collapse_space]. rewrite Hc. f_equal. apply IH. intros H. discriminate H.
Qed.

(** Removing the index prefixes, the trailing white space and the white-space
    runs of a text that went through these three steps changes nothing. *)
Lemma normalization_steps_idempotent (s : jsstring) :
  let text := collapse_space (first :: others) false (strip_trailing_space s) in
  collapse_space (first :: others) false
    (strip_trailing_space (strip_index_prefixes 0 text))
  = text.
Proof.
  intros text. unfold text.
  rewrite (strip_index_prefixes_blank_free _ (collapse_space_blank_free _ _)).
  rewrite (strip_trailing_space_collapse _ (strip_trailing_space_idempotent s)).
  apply collapse_space_idempotent. intros H. discriminate H.
Qed.

End NormalizedTextIsStable.

(** X11. Normalization is idempotent, so parsing a text that is already
    normalized gives what parsing the raw text gave. *)
Theorem normalize_idempotent (h : Host) (commandResult : jsstring) :
  normalize h (normalize h commandResult) = normalize h commandResult
  /\ filterMultiline h (normalize h commandResult) = filterMultiline h commandResult.
Proof.
  assert (Hnorm : normalize h (normalize h commandResult) = normalize h commandResult).
  { unfold normalize. cbn zeta. destruct (jseq (getCurrentOs h) (js "win")).
    - apply (normalization_steps_idempotent CR [LF] eq_refl eq_refl eq_refl).
    - apply (normalization_steps_idempotent LF [] eq_refl eq_refl eq_refl). }
  split; [exact Hnorm|]. unfold filterMultiline. cbn zeta. now rewrite Hnorm.
Qed.

(** *** The platform does not change the result *)

Lemma split_runs_platform (s : jsstring) :
  forall (collapsing in_run : bool) (piece : jsstring),
    split_runs (fun c => N.eqb c CR || N.eqb c LF) in_run piece
      (collapse_space [CR; LF] collapsing s)
    = split_runs (fun c => N.eqb c LF) in_run piece (collapse_space [LF] collapsing s).
Proof.
  induction s as [|c s IH]; intros collapsing in_run piece; [reflexivity|].
  cbn [collapse_space]. destruct (is_space c) eqn:Hc.
  - destruct collapsing; [apply IH|].
    cbn [app split_runs]. change (N.eqb CR CR || N.eqb CR LF) with true.
    change (N.eqb LF CR || N.eqb LF LF) with true. change (N.eqb LF LF) with true.
    cbn iota. destruct in_run; now rewrite IH.
  - cbn [split_runs].
    assert (Hcr : N.eqb c CR = false)
      by (destruct (N.eqb c CR) eqn:E; [apply N.eqb_eq in E; subst c; discriminate Hc|reflexivity]).
    assert (Hlf : N.eqb c LF = false)
      by (destruct (N.eqb c LF) eqn:E; [apply N.eqb_eq in E; subst c; discriminate Hc|reflexivity]).
    rewrite Hcr, Hlf. cbn [orb]. apply IH.
Qed.

Lemma starts_with_platform (literal s : jsstring) :
  space_free literal = true ->
  forall collapsing,
    starts_with literal (collapse_space [CR; LF] collapsing s)
    = starts_with literal (collapse_space [LF] collapsing s).
Proof.
  revert literal. induction s as [|c s IH]; intros literal Hlit collapsing; [reflexivity|].
  destruct literal as [|p literal]; [reflexivity|].
  unfold space_free in Hlit. cbn [forallb] in Hlit. apply andb_prop in Hlit as [Hp Hlit].
  cbn [collapse_space]. destruct (is_space c) eqn:Hc.
  - destruct collapsing.
    + cbn [app]. apply (IH (p :: literal)).
      unfold space_free. cbn [forallb]. now rewrite Hp, Hlit.
    + cbn [app starts_with].
      assert (Hcr : N.eqb p CR = false)
        by (destruct (N.eqb p CR) eqn:E;
            [apply N.eqb_eq in E; subst p; discriminate Hp|reflexivity]).
      assert (Hlf : N.eqb p LF = false)
        by (destruct (N.eqb p LF) eqn:E;
            [apply N.eqb_eq in E; subst p; discriminate Hp|reflexivity]).
      now rewrite Hcr, Hlf.
  - cbn [starts_with]. f_equal. now apply IH.
Qed.

Lemma starts_with_nonspace_prefix (literal s : jsstring) :
  space_free literal = true ->
  starts_with literal (collapse_space [LF] false s) = true ->
  nonspace_prefix (List.length literal) s = true.
Proof.
  revert s. induction literal as [|p literal IH]; intros s Hlit Hstart; [reflexivity|].
  unfold space_free in Hlit. cbn [forallb] in Hlit. apply andb_prop in Hlit as [Hp Hlit].
  destruct s as [|c s]; [discriminate Hstart|].
  cbn [collapse_space] in Hstart. cbn [List.length nonspace_prefix].
  destruct (is_space c) eqn:Hc.
  - cbn [app starts_with] in Hstart. apply andb_prop in Hstart as [E _].
    apply N.eqb_eq in E. subst p. discriminate Hp.
  - cbn [starts_with] in Hstart. apply andb_prop in Hstart as [_ Hrest].
    cbn [negb andb]. now apply IH.
Qed.

Lemma start_token_platform (c : N) (s : jsstring) :
  start_token c (collapse_space [CR; LF] false s)
  = start_token c (collapse_space [LF] false s).
Proof.
  assert (H : forall literal,
            space_free literal = true ->
            starts_with literal (c :: collapse_space [CR; LF] false s)
            = starts_with literal (c :: collapse_space [LF] false s)).
  { intros [|p literal] Hlit; [reflexivity|]. cbn [starts_with]. f_equal.
    apply starts_with_platform. unfold space_free in *. cbn [forallb] in Hlit.
    now apply andb_prop in Hlit as [_ Hlit]. }
  unfold start_token.
  now rewrite (H (js "true") eq_refl), (H (js "false") eq_refl), (H (js "null") eq_refl).
Qed.

Lemma start_token_ready (c : N) (s : jsstring) (toks : list token) (st : LexState) :
  start_token c (collapse_space [LF] false s) = Some (toks, st) -> lex_ready st s.
Proof.
  assert (H : forall literal,
            space_free literal = true ->
            starts_with literal (c :: collapse_space [LF] false s) = true ->
            nonspace_prefix (Nat.pred (List.length literal)) s = true).
  { intros [|p literal] Hlit Hstart; [reflexivity|].
    cbn [starts_with] in Hstart. apply andb_prop in Hstart as [_ Hrest].
    apply starts_with_nonspace_prefix; [|exact Hrest].
    unfold space_free in *. cbn [forallb] in Hlit.
    now apply andb_prop in Hlit as [_ Hlit]. }
  unfold start_token.
  repeat match goal with
         | |- (if ?b then _ else _) = _ -> _ => destruct b eqn:?
         end;
    intros Heq; try discriminate Heq; injection Heq as <- <-; try exact I.
  - apply (H (js "true") eq_refl). assumption.
  - apply (H (js "false") eq_refl). assumption.
  - apply (H (js "null") eq_refl). assumption.
Qed.

Lemma option_map_app_nil (x : option (list token)) : option_map (app []) x = x.
Proof.
  now destruct x.
Qed.

Lemma lex_idle_space (c : N) (rest : jsstring) :
  is_json_ws c = true -> lex LIdle (c :: rest) = lex LIdle rest.
Proof.
  intros Hc. cbn [lex]. unfold start_token. rewrite Hc. apply option_map_app_nil.
Qed.

Lemma lex_number_space (acc : jsstring) (c : N) (rest : jsstring) :
  is_json_ws c = true -> is_number_char c = false ->
  lex (LInNumber acc) (c :: rest)
  = match number_of acc with
    | Some n => option_map (cons (TLiteral n)) (lex LIdle rest)
    | None => None
    end.
Proof.
  intros Hws Hnum. cbn [lex]. rewrite Hnum. unfold start_token. rewrite Hws.
  destruct (number_of acc); [|reflexivity]. now destruct (lex LIdle rest).
Qed.

(** The lexer reads the same tokens whether the white-space runs were
    replaced by a carriage return and a line feed or by a line feed. *)
Lemma lex_platform (s : jsstring) :
  forall (st : LexState) (collapsing : bool),
    lex_ready st s ->
    lex st (collapse_space [CR; LF] collapsing s) = lex st (collapse_space [LF] collapsing s).
Proof.
  induction s as [|c s IH]; intros st collapsing Hready; [reflexivity|].
  cbn [collapse_space]. destruct (is_space c) eqn:Hc.
  - assert (Hnext : lex_ready st s).
    { destruct st as [|[|n]| | | |]; try exact I; [reflexivity|].
      cbn [lex_ready nonspace_prefix] in Hready. rewrite Hc in Hready. discriminate Hready. }
    destruct collapsing; [now apply IH|].
    cbn [app].
    destruct st as [|[|n]|acc|acc|acc remaining value|acc].
    + rewrite !lex_idle_space by reflexivity. now apply IH.
    + change (lex (LSkip 0) (CR :: LF :: collapse_space [CR; LF] true s))
        with (lex LIdle (LF :: collapse_space [CR; LF] true s)).
      change (lex (LSkip 0) (LF :: collapse_space [LF] true s))
        with (lex LIdle (collapse_space [LF] true s)).
      rewrite lex_idle_space by reflexivity. now apply IH.
    + cbn [lex_ready nonspace_prefix] in Hready. rewrite Hc in Hready. discriminate Hready.
    + reflexivity.
    + reflexivity.
    + reflexivity.
    + rewrite !lex_number_space by reflexivity.
      rewrite lex_idle_space by reflexivity. now rewrite (IH LIdle true I).
  - assert (Hidle : forall (k : list token -> list token),
              match start_token c (collapse_space [CR; LF] false s) with
              | Some (toks, st') =>
                  option_map (fun r => k (toks ++ r))
                    (lex st' (collapse_space [CR; LF] false s))
              | None => None
              end
              = match start_token c (collapse_space [LF] false s) with
                | Some (toks, st') =>
                    option_map (fun r => k (toks ++ r))
                      (lex st' (collapse_space [LF] false s))
                | None => None
                end).
    { intros k. rewrite start_token_platform.
      destruct (start_token c (collapse_space [LF] false s)) as [[toks st']|] eqn:Hstart;
        [|reflexivity].
      now rewrite (IH st' false (start_token_ready c s toks st' Hstart)). }
    destruct st as [|[|[|n]]|acc|acc|acc remaining value|acc]; cbn [lex].
    + pose proof (Hidle (fun r => r)) as H.
      destruct (start_token c (collapse_space [CR; LF] false s)) as [[t1 s1]|];
        destruct (start_token c (collapse_space [LF] false s)) as [[t2 s2]|];
        exact H.
    + now apply IH.
    + now apply IH.
    + apply IH. cbn [lex_ready nonspace_prefix] in Hready.
      apply andb_prop in Hready as [_ Hready]. exact Hready.
    + destruct (N.eqb c DQUOTE); [now rewrite (IH LIdle false I)|].
      destruct (N.eqb c BACKSLASH); [now apply IH|].
      destruct (c <? 32)%N; [reflexivity|now apply IH].
    + destruct (N.eqb c (ch "u")); [now apply IH|].
      destruct (escape_of c); [now apply IH|reflexivity].
    + destruct (hex_digit c); [|reflexivity].
      destruct remaining as [|[|r]]; now apply IH.
    + destruct (is_number_char c); [now apply IH|].
      destruct (number_of acc) as [n|].
      * pose proof (Hidle (fun r => TLiteral n :: r)) as H.
        destruct (start_token c (collapse_space [CR; LF] false s)) as [[t1 s1]|];
          destruct (start_token c (collapse_space [LF] false s)) as [[t2 s2]|];
          exact H.
      * reflexivity.
Qed.

(** X12. The result of the parser does not depend on the platform: on a
    Windows classification and on any other the same raw text parses to the
    same array. *)
Theorem filterMultiline_platform_independent (h1 h2 : Host) (commandResult : jsstring) :
  filterMultiline h1 commandResult = filterMultiline h2 commandResult.
Proof.
  assert (H : forall s,
            match JSON_parse (collapse_space [CR; LF] false s) with
            | Some v => [VJson v]
            | None =>
                List.map convertToken
                  (split_runs (fun c => N.eqb c CR || N.eqb c LF) false []
                     (collapse_space [CR; LF] false s))
            end
            = match JSON_parse (collapse_space [LF] false s) with
              | Some v => [VJson v]
              | None =>
                  List.map convertToken
                    (split_runs (fun c => N.eqb c LF) false [] (collapse_space [LF] false s))
              end).
  { intros s. unfold JSON_parse. rewrite (lex_platform s LIdle false I).
    now rewrite split_runs_platform. }
  unfold filterMultiline, normalize. cbn zeta.
  destruct (jseq (getCurrentOs h1) (js "win")), (jseq (getCurrentOs h2) (js "win"));
    first [reflexivity | apply H | symmetry; apply H].
Qed.

(** ** Call synthesizer *)

Lemma paren_scan_counts (s : jsstring) :
  forall depth deepest depth' deepest',
    paren_scan depth deepest s = Some (depth', deepest') ->
    depth + opening_count s = depth' + closing_count s.
Proof.
  unfold opening_count, closing_count.
  induction s as [|c s IH]; intros depth deepest depth' deepest' H.
  - injection H as <- _. reflexivity.
  - cbn [paren_scan] in H. cbn [filter].
    destruct (N.eqb c LPAREN) eqn:Hopen.
    + assert (Hclose : N.eqb c RPAREN = false)
        by (apply N.eqb_eq in Hopen; now subst c).
      rewrite Hclose. apply IH in H. cbn [List.length]. lia.
    + destruct (N.eqb c RPAREN).
      * destruct depth as [|d]; [discriminate H|]. apply IH in H. cbn [List.length]. lia.
      * now apply IH in H.
Qed.

Lemma balanced_surplus (s : jsstring) (n : nat) :
  balanced s = true -> surplus s n -> n = 0.
Proof.
  unfold balanced, surplus. intros Hb Hs.
  destruct (paren_scan 0 0 s) as [[[|d] m]|] eqn:Hscan; try discriminate Hb.
  apply paren_scan_counts in Hscan. lia.
Qed.

Lemma surplus_app (a b : jsstring) (n k : nat) :
  surplus a n -> surplus b k -> surplus (a ++ b) (n + k).
Proof.
  unfold surplus, opening_count, closing_count. rewrite !filter_app, !length_app. lia.
Qed.

Lemma surplus_paren_free (s : jsstring) : paren_free s = true -> surplus s 0.
Proof.
  unfold surplus, opening_count, closing_count, paren_free.
  induction s as [|c s IH]; [reflexivity|]. cbn [forallb filter]. intros H.
  apply andb_prop in H as [Hc Hs]. apply negb_true_iff, orb_false_iff in Hc as [-> ->].
  now apply IH.
Qed.

Lemma surplus_without_separator (s : jsstring) (n : nat) :
  surplus (s ++ [COMMA]) n -> surplus s n.
Proof.
  unfold surplus, opening_count, closing_count. rewrite !filter_app, !length_app.
  cbn. lia.
Qed.

Lemma surplus_wrapped (before s after : jsstring) (n : nat) :
  paren_free before = true -> paren_free after = true -> surplus s n ->
  surplus (before ++ LPAREN :: s ++ RPAREN :: after) n.
Proof.
  intros Hb Ha Hs. apply surplus_paren_free in Hb. apply surplus_paren_free in Ha.
  unfold surplus, opening_count, closing_count in *.
  rewrite !filter_app, !length_app. cbn [filter]. change (N.eqb LPAREN RPAREN) with false.
  change (N.eqb LPAREN LPAREN) with true. cbn iota. rewrite !filter_app, !length_app.
  cbn [filter]. change (N.eqb RPAREN RPAREN) with true.
  change (N.eqb RPAREN LPAREN) with false. cbn iota. cbn [List.length].
  rewrite ?length_app. lia.
Qed.

Lemma concat_ends_with_separator (texts : list jsstring) :
  texts <> [] ->
  Forall (fun text => exists x, text = x ++ [COMMA]) texts ->
  exists x, concat texts = x ++ [COMMA].
Proof.
  intros Hne H. induction H as [|text texts [x ->] Hrest IH]; [now elim Hne|].
  destruct texts as [|text' texts].
  - exists x. cbn. now rewrite app_nil_r.
  - destruct IH as [y Hy]; [discriminate|].
    exists ((x ++ [COMMA]) ++ y). cbn [concat] in *. rewrite Hy.
    now rewrite <- !app_assoc.
Qed.

Lemma surplus_concat (texts : list jsstring) (counts : list nat) :
  Forall2 surplus texts counts -> surplus (concat texts) (list_sum counts).
Proof.
  induction 1 as [|text n texts counts Hone Hrest IH].
  - reflexivity.
  - change (surplus (text ++ concat texts) (n + list_sum counts)). now apply surplus_app.
Qed.

(** The text a non-empty loop appended, without its last separator, between
    the parentheses that the caller writes around it. *)
Lemma surplus_of_loop (before after : jsstring) (texts : list jsstring) (counts : list nat) :
  paren_free before = true -> paren_free after = true ->
  texts <> [] ->
  Forall (fun text => exists x, text = x ++ [COMMA]) texts ->
  Forall2 surplus texts counts ->
  surplus (slice_0_m1 (before ++ LPAREN :: concat texts) ++ RPAREN :: after)
    (list_sum counts).
Proof.
  intros Hb Ha Hne Hends Hcounts.
  destruct (concat_ends_with_separator texts Hne Hends) as [x Hx].
  pose proof (surplus_concat texts counts Hcounts) as Hsum. rewrite Hx in *.
  replace (before ++ LPAREN :: x ++ [COMMA]) with ((before ++ LPAREN :: x) ++ [COMMA])
    by (rewrite <- app_assoc; reflexivity).
  rewrite slice_append_one. rewrite <- app_assoc. cbn [app].
  apply surplus_wrapped; auto. now apply surplus_without_separator.
Qed.

(** Every empty array costs the serialization one opening parenthesis. *)
Lemma convertParamsArray_surplus (p : ParameterValue) :
  atoms_paren_free p = true -> surplus (convertParamsArray p) (empty_arrays p).
Proof.
  induction p as [items IH|s| |text] using ParameterValue_nested_ind; intros Hfree.
  - destruct items as [|p items]; [reflexivity|].
    rewrite convertParamsArray_array. unfold serializedItems.
    cbn [empty_arrays]. cbn [atoms_paren_free] in Hfree.
    change (js "c(" ++ concat (List.map convertParamsArray (p :: items)))
      with (js "c" ++ LPAREN :: concat (List.map convertParamsArray (p :: items))).
    change (js "),") with (RPAREN :: js ",").
    apply surplus_of_loop; try reflexivity; try discriminate.
    + apply Forall_forall. intros text Hin. apply in_map_iff in Hin as [q [<- _]].
      apply convertParamsArray_ends_with_comma.
    + revert IH Hfree. generalize (p :: items) as l. clear p items.
      induction l as [|q l IHl]; intros IH Hfree; cbn [List.map]; constructor.
      * cbn [forallb] in Hfree. apply andb_prop in Hfree as [Hq _].
        inversion IH as [|? ? Hhead _]; subst. now apply Hhead.
      * cbn [forallb] in Hfree. apply andb_prop in Hfree as [_ Hl].
        inversion IH as [|? ? _ Htail]; subst. now apply IHl.
  - cbn [convertParamsArray empty_arrays atoms_paren_free] in *.
    apply surplus_paren_free. unfold paren_free in *.
    rewrite forallb_app, forallb_app, Hfree. reflexivity.
  - reflexivity.
  - cbn [convertParamsArray empty_arrays atoms_paren_free] in *.
    apply surplus_paren_free. unfold paren_free in *.
    rewrite forallb_app, Hfree. reflexivity.
Qed.

Lemma list_sum_zero (counts : list nat) :
  list_sum counts = 0 -> Forall (fun n => n = 0) counts.
Proof.
  induction counts as [|n counts IH]; intros H; constructor.
  - change (n + list_sum counts = 0) in H. lia.
  - apply IH. change (n + list_sum counts = 0) in H. lia.
Qed.

Lemma no_empty_arrays (p : ParameterValue) :
  empty_arrays p = 0 -> lists_nonempty p = true.
Proof.
  induction p as [items IH|s| |text] using ParameterValue_nested_ind;
    intros H; try reflexivity.
  destruct items as [|p items]; [discriminate H|].
  cbn [empty_arrays] in H. cbn [lists_nonempty].
  apply list_sum_zero in H. revert IH H. generalize (p :: items) as l. clear p items.
  induction l as [|q l IHl]; intros IH H; [reflexivity|].
  cbn [List.map] in H. inversion H as [|? ? Hq Hl]; subst.
  inversion IH as [|? ? Hhead Htail]; subst.
  cbn [forallb]. now rewrite (Hhead Hq), (IHl Htail Hl).
Qed.

Lemma namedEntry_ends_with_separator (kv : jsstring * ParameterValue) :
  exists x, namedEntry [] kv = x ++ [COMMA].
Proof.
  destruct kv as [key [items|s| |text]]; cbn [namedEntry app].
  - destruct (convertParamsArray_ends_with_comma (PArray items)) as [x ->].
    exists (key ++ js "=" ++ x). now rewrite <- !app_assoc.
  - exists (key ++ js "='" ++ s ++ js "'"). now string_normalize.
  - exists (key ++ js "=NA"). now string_normalize.
  - exists (key ++ js "=" ++ text). now string_normalize.
Qed.

Lemma namedEntry_surplus (kv : jsstring * ParameterValue) :
  entry_paren_free kv = true -> surplus (namedEntry [] kv) (empty_arrays (snd kv)).
Proof.
  unfold entry_paren_free. destruct kv as [key v]. cbn [fst snd]. intros H.
  apply andb_prop in H as [Hkey Hv].
  assert (Hkey' : surplus (key ++ js "=") 0).
  { apply surplus_paren_free. unfold paren_free in *. now rewrite forallb_app, Hkey. }
  destruct v as [items|s| |text]; cbn [namedEntry app].
  - rewrite app_assoc. apply (surplus_app _ _ 0 _ Hkey').
    now apply convertParamsArray_surplus.
  - apply surplus_paren_free. cbn [atoms_paren_free] in Hv. unfold paren_free in *.
    rewrite !forallb_app, Hkey, Hv. reflexivity.
  - apply surplus_paren_free. unfold paren_free in *. now rewrite forallb_app, Hkey.
  - apply surplus_paren_free. cbn [atoms_paren_free] in Hv. unfold paren_free in *.
    rewrite !forallb_app, Hkey, Hv. reflexivity.
Qed.

Lemma serializedEntries_concat (entries : list (jsstring * ParameterValue)) :
  serializedEntries entries = concat (List.map (namedEntry []) entries).
Proof.
  induction entries as [|kv entries IH]; [reflexivity|].
  change (kv :: entries) with ([kv] ++ entries) at 1.
  rewrite serializedEntries_app, IH. reflexivity.
Qed.

(** X13. When no name and no string holds a parenthesis, the call text is
    balanced exactly when no array is empty: for a positional call when the
    list and the arrays nested in it all have an element, for a named call
    when the map has an entry and the arrays among its values all have an
    element. *)
Theorem balanced_iff_no_empty_array (methodName : jsstring) :
  paren_free methodName = true ->
  (forall items,
     atoms_paren_free (PArray items) = true ->
     (balanced (methodSyntax methodName (Positional items)) = true
      <-> lists_nonempty (PArray items) = true))
  /\ (forall entries,
        forallb entry_paren_free entries = true ->
        (balanced (methodSyntax methodName (Named entries)) = true
         <-> entries <> []
             /\ forallb (fun kv => lists_nonempty (snd kv)) entries = true)).
Proof.
  intros Hname. destruct (methodSyntax_wellformed methodName Hname) as [Hpos Hnamed].
  split.
  - intros items Hfree. split; [|intros Hne; now apply Hpos].
    intros Hbalanced. apply no_empty_arrays.
    apply (balanced_surplus _ _ Hbalanced).
    unfold methodSyntax.
    destruct (convertParamsArray_ends_with_comma (PArray items)) as [x Hx].
    pose proof (convertParamsArray_surplus (PArray items) Hfree) as Hs.
    rewrite Hx in *.
    replace ((methodName ++ js "(") ++ x ++ [COMMA])
      with ((methodName ++ LPAREN :: x) ++ [COMMA]) by now string_normalize.
    rewrite slice_append_one. rewrite <- app_assoc. cbn [app].
    apply surplus_wrapped; auto. now apply surplus_without_separator.
  - intros entries Hfree. split.
    + intros Hbalanced. destruct entries as [|kv entries].
      { assert (Hs : surplus (methodSyntax methodName (Named [])) 1).
        { unfold methodSyntax. cbn [fold_left].
          change (methodName ++ js "(") with (methodName ++ [LPAREN]).
          rewrite slice_append_one.
          apply (surplus_app methodName (js ")") 0 1); [|reflexivity].
          now apply surplus_paren_free. }
        discriminate (balanced_surplus _ _ Hbalanced Hs). }
      split; [discriminate|].
      assert (Hs : surplus (methodSyntax methodName (Named (kv :: entries)))
                     (list_sum (List.map (fun e => empty_arrays (snd e)) (kv :: entries)))).
      { unfold methodSyntax. rewrite fold_namedEntry_append, serializedEntries_concat.
        replace ((methodName ++ js "(") ++ concat (List.map (namedEntry []) (kv :: entries)))
          with (methodName ++ LPAREN :: concat (List.map (namedEntry []) (kv :: entries)))
          by now string_normalize.
        change (js ")") with (RPAREN :: []).
        apply surplus_of_loop; try reflexivity; try discriminate; auto.
        - apply Forall_forall. intros text Hin. apply in_map_iff in Hin as [e [<- _]].
          apply namedEntry_ends_with_separator.
        - revert Hfree. generalize (kv :: entries) as l.
          induction l as [|e l IHl]; intros Hfree; cbn [List.map]; constructor.
          + cbn [forallb] in Hfree. apply andb_prop in Hfree as [He _].
            now apply namedEntry_surplus.
          + cbn [forallb] in Hfree. apply andb_prop in Hfree as [_ Hl]. now apply IHl. }
      pose proof (balanced_surplus _ _ Hbalanced Hs) as Hzero.
      apply list_sum_zero in Hzero. revert Hzero. generalize (kv :: entries) as l.
      induction l as [|e l IHl]; intros Hzero; [reflexivity|].
      cbn [List.map] in Hzero. inversion Hzero as [|? ? He Hl]; subst.
      cbn [forallb]. now rewrite (no_empty_arrays _ He), (IHl Hl).
    + intros [Hne Hall]. apply Hnamed; [exact Hne|].
      clear Hne. induction entries as [|e entries IH]; [reflexivity|].
      cbn [forallb] in *. apply andb_prop in Hfree as [He Hfree].
      apply andb_prop in Hall as [Hv Hall].
      unfold entry_paren_free in He. apply andb_prop in He as [Hkey Hatoms].
      rewrite (IH Hfree Hall), andb_true_r.
      unfold entry_wellformed. now rewrite Hkey, Hv, Hatoms.
Qed.

Lemma balanced_iff_no_empty_array_witness :
  balanced (methodSyntax (js "f") (Positional [PArray []; PScalar (js "1")])) = false
  /\ balanced (methodSyntax (js "f") (Positional [PArray [PScalar (js "1")]])) = true.
Proof.
  destruct (balanced_iff_no_empty_array (js "f") eq_refl) as [Hpos _].
  split.
  - destruct (balanced (methodSyntax (js "f") (Positional [PArray []; PScalar (js "1")])))
      eqn:E; [|reflexivity].
    apply (Hpos [PArray []; PScalar (js "1")] eq_refl) in E. discriminate E.
  - apply (Hpos [PArray [PScalar (js "1")]] eq_refl). reflexivity.
Defined.

(** X14. The call text does not tell one string from two parameters: in a
    positional call a string that holds a quote, a comma and a quote gives the
    very text of the two strings around them passed as two parameters, and in
    a named call a string value can in the same way bring in a further named
    parameter. *)
Theorem string_parameter_can_split (methodName a b : jsstring) :
  (forall pre post,
     methodSyntax methodName (Positional (pre ++ PString (a ++ js "','" ++ b) :: post))
     = methodSyntax methodName (Positional (pre ++ PString a :: PString b :: post)))
  /\ (forall pre post key other,
        methodSyntax methodName
          (Named (pre ++ (key, PString (a ++ js "'," ++ other ++ js "='" ++ b)) :: post))
        = methodSyntax methodName
            (Named (pre ++ (key, PString a) :: (other, PString b) :: post))).
Proof.
  split.
  - intros pre post. unfold methodSyntax. rewrite !convertParamsArray_array.
    rewrite !serializedItems_app. do 2 f_equal. f_equal. do 3 f_equal.
    unfold serializedItems. cbn [List.map concat convertParamsArray].
    now string_normalize.
  - intros pre post key other. unfold methodSyntax. rewrite !fold_namedEntry_append.
    rewrite !serializedEntries_app. do 2 f_equal. f_equal. f_equal.
    rewrite !serializedEntries_concat. cbn [List.map concat namedEntry].
    now string_normalize.
Qed.

(** ** Index prefixes *)

Lemma span_digits_app (digits rest : jsstring) :
  forallb is_digit digits = true ->
  span_digits (digits ++ ch "]" :: rest) = (digits, ch "]" :: rest).
Proof.
  induction digits as [|d digits IH]; [reflexivity|]. cbn [forallb app span_digits].
  intros H. apply andb_prop in H as [Hd Hdigits]. now rewrite Hd, (IH Hdigits).
Qed.

Lemma strip_index_prefixes_skips (skipped rest : jsstring) :
  strip_index_prefixes (List.length skipped) (skipped ++ rest)
  = strip_index_prefixes 0 rest.
Proof.
  induction skipped as [|c skipped IH]; [reflexivity|]. exact IH.
Qed.

(** X15. The index prefix that starts a printed line, an opening bracket, one
    or more digits, a closing bracket and a space, leaves no trace: with or
    without it the text parses to the same array. *)
Theorem leading_index_prefix_ignored (h : Host) (digits rest : jsstring) :
  digits <> [] ->
  forallb is_digit digits = true ->
  filterMultiline h (js "[" ++ digits ++ js "] " ++ rest) = filterMultiline h rest.
Proof.
  intros Hne Hdigits.
  assert (Hstrip : strip_index_prefixes 0 (js "[" ++ digits ++ js "] " ++ rest)
                   = strip_index_prefixes 0 rest).
  { change (js "[" ++ digits ++ js "] " ++ rest)
      with (ch "[" :: digits ++ ch "]" :: SPACE :: rest).
    cbn [strip_index_prefixes match_index_prefix]. rewrite N.eqb_refl.
    rewrite (span_digits_app digits (SPACE :: rest) Hdigits).
    destruct digits as [|d digits]; [now elim Hne|].
    rewrite !N.eqb_refl. cbn [andb plus].
    replace ((d :: digits) ++ ch "]" :: SPACE :: rest)
      with (((d :: digits) ++ [ch "]"; SPACE]) ++ rest)
      by (rewrite <- app_assoc; reflexivity).
    replace (S (S (List.length (d :: digits))))
      with (List.length ((d :: digits) ++ [ch "]"; SPACE]))
      by (rewrite length_app; cbn [List.length]; lia).
    apply strip_index_prefixes_skips. }
  unfold filterMultiline, normalize. cbn zeta. now rewrite Hstrip.
Qed.

Lemma leading_index_prefix_ignored_witness :
  filterMultiline (linux_host [] (fun _ => exits_ok [] [])) (js "[12] TRUE")
  = filterMultiline (linux_host [] (fun _ => exits_ok [] [])) (js "TRUE").
Proof.
  apply (leading_index_prefix_ignored (linux_host [] (fun _ => exits_ok [] []))
           (js "12") (js "TRUE")); [discriminate|reflexivity].
Defined.

(** ** Override directory and decoded values *)

(** X16. On a Unix-like classification, with a non-empty override directory,
    the only path the locator can return is the override joined with
    [Rscript], and it returns it exactly when a file exists there; [which] is
    not consulted, and a failure carries that joined path. *)
Theorem locate_with_override (h : Host) (D : jsstring) :
  getCurrentOs h = js "lin" \/ getCurrentOs h = js "mac" ->
  truthy (Some D) = true ->
  let candidate := pt_join h [D; js "Rscript"] in
  (getRscriptPath h (Some D) = Return candidate
   <-> fs_existsSync h candidate = true /\ candidate <> [])
  /\ (forall p, getRscriptPath h (Some D) = Return p -> p = candidate)
  /\ (forall e, getRscriptPath h (Some D) = Throw e ->
                e = REngineNotFoundError (Some candidate)).
Proof.
  intros Hos HD candidate.
  rewrite (getRscriptPath_unix h (Some D) Hos). unfold unixCase.
  rewrite HD. cbn [negb template_text]. fold candidate.
  destruct (fs_existsSync h candidate); cbn [checkInstallationDir].
  - destruct candidate as [|c rest] eqn:E.
    + split; [|split].
      * split; [intros H; discriminate H|intros [_ H]; now elim H].
      * intros p H. discriminate H.
      * intros e H. now injection H as <-.
    + split; [|split].
      * split; [intros _; split; [reflexivity|discriminate]|reflexivity].
      * intros p H. now injection H as <-.
      * intros e H. discriminate H.
  - split; [|split].
    + split; [intros H; discriminate H|intros [H _]; discriminate H].
    + intros p H. discriminate H.
    + intros e H. now injection H as <-.
Qed.

Lemma locate_with_override_witness :
  getRscriptPath (linux_host [js "/opt/R/Rscript"] (fun c => exits_failed c [] []))
    (Some (js "/opt/R"))
  = Return (js "/opt/R/Rscript").
Proof.
  apply (locate_with_override
           (linux_host [js "/opt/R/Rscript"] (fun c => exits_failed c [] []))
           (js "/opt/R") (or_introl eq_refl) eq_refl).
  split; [reflexivity|]. vm_compute. discriminate.
Defined.

(** X17. A decoded JSON value only ever comes alone: when the result holds
    one, the whole normalized text decoded to it and the result has no other
    element; a result of several elements holds only strings, [undefined] and
    the not-a-number value. *)
Theorem json_value_comes_alone (h : Host) (commandResult : jsstring) (v : JSON) :
  In (VJson v) (filterMultiline h commandResult) ->
  filterMultiline h commandResult = [VJson v]
  /\ JSON_parse (normalize h commandResult) = Some v.
Proof.
  unfold filterMultiline. cbn zeta.
  destruct (JSON_parse (normalize h commandResult)) as [w|].
  - intros [H|[]]. injection H as ->. split; reflexivity.
  - intros Hin. apply in_map_iff in Hin as [piece [Hvalue _]].
    unfold convertToken in Hvalue.
    destruct (jseq piece (js "NA")); [discriminate Hvalue|].
    destruct (jseq piece (js "NaN")); discriminate Hvalue.
Qed.

Lemma json_value_comes_alone_witness :
  filterMultiline (linux_host [] (fun _ => exits_ok [] [])) (js "[1] 5" ++ [LF])
  = [VJson (JNumber false 5 0)].
Proof.
  apply (json_value_comes_alone (linux_host [] (fun _ => exits_ok [] []))
           (js "[1] 5" ++ [LF]) (JNumber false 5 0)).
  vm_compute. left. reflexivity.
Defined.
